(** * Root robot BLE driver: src/extensions/scratch3_root/index.js

    A shallow embedding of the packet codec, the peripheral session
    ([Root]) and the block layer ([Scratch3RootBlocks]) of the Scratch 3
    extension for the Root robot, followed by the properties of the
    repository's specification.

    JavaScript numbers are modelled by exact rationals ([Number := Q], finite
    values only); values that the code only ever produces as 32-bit integers
    are kept in [Z]; a [Uint8Array] is a [list Z].  Promises, timers and the
    module-wide [EventEmitter] are modelled by an explicit [Host] state with a
    millisecond clock. *)

From Stdlib Require Import ZArith QArith Qminmax Lia String List.
From stdpp Require Import base list strings.
Import ListNotations.

#[local] Open Scope Z_scope.

(** ** JavaScript numbers and the conversions the bit operators apply *)

Module JS.

Definition Number : Type := Q.

(** An integer literal read as a [Number]. *)
Definition num (z : Z) : Number := inject_Z z.

(** Truncation toward zero, the first step of ECMAScript [ToInt32]. *)
Definition trunc (x : Number) : Z := Z.quot (Qnum x) (Z.pos (Qden x)).

(** [ToInt32] on an integer: reduce modulo 2^32 into [-2^31, 2^31). *)
Definition ToInt32Z (n : Z) : Z := (n + 2 ^ 31) mod 2 ^ 32 - 2 ^ 31.

(** [ToInt32] on a finite number. *)
Definition ToInt32 (x : Number) : Z := ToInt32Z (trunc x).

(** [ToInt32] on an indexed read of a typed array: an index past the end
    reads [undefined], which converts to [NaN] and then to 0. *)
Definition ToInt32U (x : option Z) : Z :=
  match x with
  | Some b => ToInt32Z b
  | None => 0
  end.

(** [a & b] and [a >> k] once both operands of [&] are 32-bit integers;
    [>>] is the sign-propagating shift. *)
Definition band (a b : Z) : Z := Z.land a b.
Definition sar (a k : Z) : Z := Z.shiftr a k.

(** [x == k] for an indexed read [x] and an integer literal [k]:
    [undefined == k] is false. *)
Definition looseEq (x : option Z) (k : Z) : bool :=
  match x with
  | Some b => b =? k
  | None => false
  end.

(** Truthiness of an integer. *)
Definition truthy (z : Z) : bool := negb (z =? 0).

(** [Math.min] and [Math.max] on finite numbers. *)
Definition Math_min (a b : Number) : Number := Qmin a b.
Definition Math_max (a b : Number) : Number := Qmax a b.

(** [new Array(n).fill(0)]. *)
Definition zeros (n : nat) : list Number := replicate n (num 0).

End JS.

Import JS.

(** ** Module-level constants and pure helpers (index.js lines 51-95) *)

Definition BLESendInterval : Z := 100.
Definition BLESendRateMax : Z := 20.

Definition scaleBetween (unscaledNum minIn maxIn minOut maxOut : Number) : Number :=
  ((maxOut - minOut) * (unscaledNum - minIn) / (maxIn - minIn) + minOut)%Q.

Definition int32toArray (numberIn : Number) : list Z :=
  [ sar (band (ToInt32 numberIn) (ToInt32Z 0xff000000)) 24;
    sar (band (ToInt32 numberIn) (ToInt32Z 0x00ff0000)) 16;
    sar (band (ToInt32 numberIn) (ToInt32Z 0x0000ff00)) 8;
    band (ToInt32 numberIn) (ToInt32Z 0x000000ff) ].

Definition int16toArray (numberIn : Number) : list Z :=
  [ sar (band (ToInt32 numberIn) (ToInt32Z 0x0000ff00)) 8;
    band (ToInt32 numberIn) (ToInt32Z 0x000000ff) ].

(** One iteration of the loop of [colorDataToArray]. *)
Definition colorDataToArray_step (dataIn : list Z) (arrayOut : list Z) (i : nat) : list Z :=
  let arrayOut1 :=
    <[(i * 2)%nat := sar (band (ToInt32U (dataIn !! i)) (ToInt32Z 0xf0)) 4]> arrayOut in
  <[(i * 2 + 1)%nat := band (ToInt32U (dataIn !! i)) (ToInt32Z 0x0f)]> arrayOut1.

(** [new Array(32)] is a 32-slot array; the loop [for (i = 0; i < 16; i++)]
    writes every slot, so the initial content (holes) is never observed and
    is written as 0 here.  The undeclared counter [i] of the source is the
    bound variable of the fold. *)
Definition colorDataToArray (dataIn : list Z) : list Z :=
  fold_left (colorDataToArray_step dataIn) (seq 0 16) (replicate 32 0).

(** The big-endian reading of a sequence of bytes, the inverse the
    specification pairs with [int32toArray] and [int16toArray]. *)
Definition decodeBE (bytes : list Z) : Z :=
  fold_left (fun acc b => acc * 256 + b) bytes 0.

Definition is_byte (b : Z) : Prop := 0 <= b <= 255.

(** The two values the specification's [decodeColorNibbles] assigns to one
    input byte: "high nibble then low nibble". *)
Definition hi_nibble (b : option Z) : Z := (ToInt32U b / 2 ^ 4) mod 2 ^ 4.
Definition lo_nibble (b : option Z) : Z := ToInt32U b mod 2 ^ 4.

(** A colour index, one of the 16 bins of the histogram. *)
Definition is_color (v : Z) : Prop := 0 <= v <= 15.

(** Saturating clamp and the specification's rescaling of a percentage to
    [0, 255], written independently of [setLightsRGB]. *)
Definition saturate (lo hi x : Number) : Number :=
  if Qle_bool x lo then lo else if Qle_bool hi x then hi else x.

Definition percentToByte (x : Number) : Number :=
  (num 255 * saturate (num 0) (num 100) x / num 100)%Q.

(** ** The rate limiter *)

Module RateLimiter.

(** Modelled from the spec: the class [RateLimiter] of util/rateLimiter.js,
    which index.js requires and instantiates with [BLESendRateMax], is not
    among the sources.  The specification describes its state as "a count
    of sends attributed to the current one-second window, reset on window
    rollover", and its operation as returning false "without side effects
    when the window's count is already at the maximum; otherwise
    increments the count and returns true".  The window is identified by
    its start time; it rolls over at the first acquisition made one second
    or more after that start. *)
Record t : Type := mk {
  maxCount : Z;
  windowStart : Z;
  count : Z
}.

Definition windowLength : Z := 1000.

(** Modelled from the spec: [new RateLimiter(maxRate)] at clock value
    [now] opens an empty window ("initialized to all-zero"). *)
Definition new (maxRate now : Z) : t :=
  {| maxCount := maxRate; windowStart := now; count := 0 |}.

(** Modelled from the spec: window rollover resets the count. *)
Definition rollover (now : Z) (l : t) : t :=
  if windowStart l + windowLength <=? now
  then {| maxCount := maxCount l; windowStart := now; count := 0 |}
  else l.

(** Modelled from the spec: [okayToSend()], the specification's
    [tryAcquire], at clock value [now]. *)
Definition okayToSend (now : Z) (l : t) : bool * t :=
  let l1 := rollover now l in
  if maxCount l1 <=? count l1
  then (false, l1)
  else (true, {| maxCount := maxCount l1;
                 windowStart := windowStart l1;
                 count := count l1 + 1 |}).





End RateLimiter.

(** ** The host: clock, promises, timers and the module-wide emitter *)

Module Host.

(** The state of a promise; a settled promise records the clock value at
    which it was settled. *)
Inductive Settlement : Type :=
| Pending
| Fulfilled (at_ms : Z)
| Rejected (reason : string) (at_ms : Z).

(** The closures the driver registers: [() => resolve()] and
    [() => reject(reason)], for the promise with the given index. *)
Inductive Callback : Type :=
| Resolve (p : nat)
| Reject (p : nat) (reason : string).

Record t : Type := mk {
  now : Z;                                (* milliseconds *)
  promises : list Settlement;             (* indexed by promise *)
  myEvents : list (string * Callback);    (* listeners, in order of registration *)
  timers : list (Z * Callback)            (* pending timers with their deadline *)
}.

Definition init : t :=
  {| now := 0; promises := []; myEvents := []; timers := [] |}.

Definition set_now (n : Z) (h : t) : t :=
  {| now := n; promises := promises h; myEvents := myEvents h; timers := timers h |}.
Definition set_promises (ps : list Settlement) (h : t) : t :=
  {| now := now h; promises := ps; myEvents := myEvents h; timers := timers h |}.
Definition set_myEvents (ls : list (string * Callback)) (h : t) : t :=
  {| now := now h; promises := promises h; myEvents := ls; timers := timers h |}.
Definition set_timers (ts : list (Z * Callback)) (h : t) : t :=
  {| now := now h; promises := promises h; myEvents := myEvents h; timers := ts |}.

Definition state (p : nat) (h : t) : option Settlement := promises h !! p.

(** [new Promise(...)]: a fresh pending promise. *)
Definition newPromise (h : t) : nat * t :=
  (length (promises h), set_promises (promises h ++ [Pending]) h).

(** Settling a promise: only a pending promise changes state. *)
Definition settle (p : nat) (s : Settlement) (h : t) : t :=
  match promises h !! p with
  | Some Pending => set_promises (<[p := s]> (promises h)) h
  | _ => h
  end.

Definition call (cb : Callback) (h : t) : t :=
  match cb with
  | Resolve p => settle p (Fulfilled (now h)) h
  | Reject p reason => settle p (Rejected reason (now h)) h
  end.

(** [myEvents.on(name, cb)]: the listener is appended and never removed. *)
Definition on (name : string) (cb : Callback) (h : t) : t :=
  set_myEvents (myEvents h ++ [(name, cb)]) h.

(** [myEvents.emit(name)]: the listeners of [name] run in order. *)
Definition emitOn (name : string) (ls : list (string * Callback)) (h : t) : t :=
  fold_left (fun h1 l => if String.eqb l.1 name then call l.2 h1 else h1) ls h.

Definition emit (name : string) (h : t) : t := emitOn name (myEvents h) h.

(** Delay of a timer in milliseconds: the host converts the argument to a
    32-bit integer and treats a negative delay as 0. *)
Definition delay_ms (timeout : Number) : Z := Z.max 0 (ToInt32 timeout).

(** Timers are kept in firing order: by deadline, then by registration. *)
Fixpoint insertTimer (t0 : Z * Callback) (ts : list (Z * Callback)) : list (Z * Callback) :=
  match ts with
  | [] => [t0]
  | t1 :: rest =>
      if t1.1 <=? t0.1 then t1 :: insertTimer t0 rest else t0 :: t1 :: rest
  end.

(** [setTimeout(cb, timeout)]. *)
Definition setTimeout (cb : Callback) (timeout : Number) (h : t) : t :=
  set_timers (insertTimer (now h + delay_ms timeout, cb) (timers h)) h.

(** Run, in order, the timers that are due at clock value [T]; each
    callback runs at its own deadline. *)
Fixpoint fire (T : Z) (ts : list (Z * Callback)) (h : t) : t :=
  match ts with
  | [] => h
  | t1 :: rest =>
      if t1.1 <=? T then fire T rest (call t1.2 (set_now t1.1 h)) else fire T rest h
  end.

(** Let [dt] milliseconds pass. *)
Definition advance (dt : Z) (h : t) : t :=
  let T := now h + Z.max 0 dt in
  set_now T (set_timers (List.filter (fun t1 => T <? t1.1) (timers h))
                        (fire T (timers h) h)).

(** What the environment of a pending operation can do: publish a signal
    or let time pass. *)
Inductive Event : Type :=
| Emit (name : string)
| Advance (dt : Z).

Definition step (e : Event) (h : t) : t :=
  match e with
  | Emit name => emit name h
  | Advance dt => advance dt h
  end.

Definition run (tr : list Event) (h : t) : t := fold_left (fun h1 e => step e h1) tr h.



(** Total time a trace lets pass. *)
Definition duration (tr : list Event) : Z :=
  fold_right (fun e d => match e with Emit _ => d | Advance dt => Z.max 0 dt + d end) 0 tr.

(** What a callback makes of a pending promise when it runs at clock
    value [at_ms]. *)
Definition outcome (cb : Callback) (at_ms : Z) : Settlement :=
  match cb with
  | Resolve _ => Fulfilled at_ms
  | Reject _ reason => Rejected reason at_ms
  end.

(** The specification's pending operation: "exactly one outcome slot that
    is settled exactly once, either by the arrival of the named signal or
    by deadline expiry, whichever occurs first".  [raceOutcome] reads that
    outcome off a trace that starts at clock value [t]: [signal] is the
    awaited signal, if any, and [onDeadline] what the deadline does. *)
Fixpoint raceOutcome (signal : option string) (onDeadline : Callback) (deadline : Z)
    (t : Z) (tr : list Event) : Settlement :=
  match tr with
  | [] => Pending
  | Emit name :: rest =>
      if bool_decide (signal = Some name) then Fulfilled t
      else raceOutcome signal onDeadline deadline t rest
  | Advance dt :: rest =>
      if deadline <=? t + Z.max 0 dt then outcome onDeadline deadline
      else raceOutcome signal onDeadline deadline (t + Z.max 0 dt) rest
  end.

(** The timers are in firing order and none is overdue. *)
Fixpoint ascending (ts : list (Z * Callback)) : Prop :=
  match ts with
  | [] => True
  | t1 :: rest => Forall (fun t2 => t1.1 <= t2.1) rest /\ ascending rest
  end.

Definition ordered (h : t) : Prop :=
  ascending (timers h) /\ Forall (fun t1 => now h <= t1.1) (timers h).

Definition callbackTarget (cb : Callback) : nat :=
  match cb with
  | Resolve p => p
  | Reject p _ => p
  end.

(** Every registered callback belongs to an allocated promise. *)
Definition wf (h : t) : Prop :=
  Forall (fun l => (callbackTarget l.2 < length (promises h))%nat) (myEvents h) /\
  Forall (fun t1 => (callbackTarget t1.2 < length (promises h))%nat) (timers h).

(** The callbacks of [h] that concern promise [p] are the ones one call
    registered: the listeners of [signal] resolving [p] (none when
    [signal] is [None]) and the timer [onDeadline] at [deadline]. *)
Definition registered (p : nat) (signal : option string) (onDeadline : Callback)
    (deadline : Z) (h : t) : Prop :=
  callbackTarget onDeadline = p /\
  Forall (fun l => callbackTarget l.2 = p -> signal = Some l.1 /\ l.2 = Resolve p)
         (myEvents h) /\
  (forall name, signal = Some name -> (name, Resolve p) ∈ myEvents h) /\
  Forall (fun t1 => callbackTarget t1.2 = p -> t1 = (deadline, onDeadline)) (timers h).

(** The deadline timer is still pending. *)
Definition armed (onDeadline : Callback) (deadline : Z) (h : t) : Prop :=
  (deadline, onDeadline) ∈ timers h /\ now h <= deadline.

End Host.

(** ** The transport *)

Module BLE.

(** The argument [Base64Util.uint8ArrayToBase64(message)] of a write: the
    encoder of util/base64-util.js is not among the sources, so the
    encoded text is represented by the array it was applied to. *)
Inductive Base64 : Type :=
| uint8ArrayToBase64 (message : list Number).

Record WriteCall : Type := mkWrite {
  serviceId : string;
  characteristicId : string;
  data : Base64;
  encoding : string
}.

(** Modelled from the spec: the transport of io/ble.js is not among the
    sources; the specification treats it as "a capability exposing
    write(bytes) -> outcome" with "isConnected() -> bool".  The state keeps
    the connection flag and the log of the writes made so far. *)
Record t : Type := mk {
  connected : bool;
  written : list WriteCall
}.

(** Modelled from the spec: "isConnected() -> bool". *)
Definition isConnected (b : t) : bool := connected b.

(** Modelled from the spec: "write(serviceId, characteristicId, bytes,
    encoding) -> outcome"; the call is appended to the log. *)
Definition write (service characteristic : string) (d : Base64) (enc : string) (b : t) : t :=
  {| connected := connected b;
     written := written b ++ [mkWrite service characteristic d enc] |}.

End BLE.

Module BLEService.
Definition ROOT_ID : string := "48c5d828-ac2a-442d-97a3-0c9822b04979".
Definition DEVICE_SERVICE : string := "0000180a-0000-1000-8000-00805f9b34fb".
Definition UART_SERVICE : string := "6e400001-b5a3-f393-e0a9-e50e24dcca9e".
End BLEService.

Module BLECharacteristic.
Definition TX : string := "6e400002-b5a3-f393-e0a9-e50e24dcca9e".
Definition RX : string := "6e400003-b5a3-f393-e0a9-e50e24dcca9e".
End BLECharacteristic.

(** ** class Root: the peripheral session *)

Module Root.

Record BumperState : Type := mkBumper { left : bool; right : bool }.

Record TouchState : Type := mkTouch {
  frontLeft : bool;
  frontRight : bool;
  rearRight : bool;
  rearLeft : bool
}.

(** The fields of a [Root] object.  The runtime is outside the driver: of
    [this._runtime] the state keeps the number of [stopAll()] calls the
    driver has made on it. *)
Record t : Type := mk {
  _runtime_stopAll : nat;        (* calls of this._runtime.stopAll() made so far *)
  _ble : option BLE.t;           (* null until scan() *)
  _rateLimiter : RateLimiter.t;
  _bumperState : BumperState;
  _touchState : TouchState;
  _colorData : list Z;
  _colorSums : list Z
}.

(** The constructor, run at clock value [now]. *)
Definition new (now : Z) : t :=
  {| _runtime_stopAll := 0;
     _ble := None;
     _rateLimiter := RateLimiter.new BLESendRateMax now;
     _bumperState := mkBumper false false;
     _touchState := mkTouch false false false false;
     _colorData := replicate 32 0;
     _colorSums := replicate 16 0 |}.

Definition set_runtime_stopAll (n : nat) (r : t) : t :=
  mk n (_ble r) (_rateLimiter r) (_bumperState r) (_touchState r) (_colorData r) (_colorSums r).
Definition set_ble (b : option BLE.t) (r : t) : t :=
  mk (_runtime_stopAll r) b (_rateLimiter r) (_bumperState r) (_touchState r) (_colorData r) (_colorSums r).
Definition set_rateLimiter (l : RateLimiter.t) (r : t) : t :=
  mk (_runtime_stopAll r) (_ble r) l (_bumperState r) (_touchState r) (_colorData r) (_colorSums r).
Definition set_bumperState (b : BumperState) (r : t) : t :=
  mk (_runtime_stopAll r) (_ble r) (_rateLimiter r) b (_touchState r) (_colorData r) (_colorSums r).
Definition set_touchState (s : TouchState) (r : t) : t :=
  mk (_runtime_stopAll r) (_ble r) (_rateLimiter r) (_bumperState r) s (_colorData r) (_colorSums r).
Definition set_color (d sums : list Z) (r : t) : t :=
  mk (_runtime_stopAll r) (_ble r) (_rateLimiter r) (_bumperState r) (_touchState r) d sums.

Definition isConnected (r : t) : bool :=
  match _ble r with
  | Some b => BLE.isConnected b
  | None => false
  end.

(** The writes made on the transport so far. *)
Definition writes (r : t) : list BLE.WriteCall :=
  match _ble r with
  | Some b => BLE.written b
  | None => []
  end.

(** What a call of [send] returns: [Promise.resolve()], or the promise of
    the transport's write. *)
Inductive Outcome : Type :=
| ResolvedNoop
| WritePromise.

(** The call [this._ble.write(...)] of [send], lines 223-228. *)
Definition write (message : list Number) (r : t) : Outcome * t :=
  match _ble r with
  | Some b =>
      (WritePromise,
       set_ble (Some (BLE.write BLEService.UART_SERVICE BLECharacteristic.TX
                                (BLE.uint8ArrayToBase64 message) "base64" b)) r)
  | None => (ResolvedNoop, r)  (* not reached: [send] writes only when connected *)
  end.

(** The entry that call leaves in the transport's log. *)
Definition writeOf (message : list Number) : BLE.WriteCall :=
  BLE.mkWrite BLEService.UART_SERVICE BLECharacteristic.TX
              (BLE.uint8ArrayToBase64 message) "base64".

Definition send (message : list Number) (useLimiter : bool) (now : Z) (r : t) : Outcome * t :=
  if negb (isConnected r) then (ResolvedNoop, r)
  else if useLimiter then
    let '(ok, l) := RateLimiter.okayToSend now (_rateLimiter r) in
    let r1 := set_rateLimiter l r in
    if negb ok then (ResolvedNoop, r1) else write message r1
  else write message r.

(** Lines 199-203 of [sendPacket]: the packet handed to [send]. *)
Definition packet (deviceID commandID : Number) (payload : list Number) : list Number :=
  let packetID := num 0 in
  let checksum := num 0 in
  ([deviceID; commandID; packetID] ++ payload) ++ [checksum].

(** [payload] is [None] when the caller omits the argument; the default
    is [Array(16).fill(0)]. *)
Definition sendPacket (deviceID commandID : Number) (payload : option (list Number))
    (now : Z) (r : t) : Outcome * t :=
  send (packet deviceID commandID (default (zeros 16) payload)) true now r.

(** [this._colorSums[detectedColor]++].  [None] stands for an index
    outside the array, where JavaScript would grow the array and store
    [NaN]: a state outside this model. *)
Definition increment (detectedColor : Z) (sums : list Z) : option (list Z) :=
  if (0 <=? detectedColor) && (detectedColor <? Z.of_nat (length sums))
  then Some (alter Z.succ (Z.to_nat detectedColor) sums)
  else None.

(** The loop [for (i = 0; i < 32; i++)] over [this._colorData]. *)
Definition colorSums (colorData : list Z) : option (list Z) :=
  fold_left (fun sums i =>
               match sums, colorData !! i with
               | Some s, Some detectedColor => increment detectedColor s
               | _, _ => None
               end)
            (seq 0 32) (Some (replicate 16 0)).

Definition _onMessage (data : list Z) (h : Host.t) (r : t) : option (Host.t * t) :=
  let device := data !! 0%nat in
  let command := data !! 1%nat in
  if looseEq device 0 && looseEq command 4 then
    Some (h, set_runtime_stopAll (S (_runtime_stopAll r)) r)
  else if looseEq device 12 && looseEq command 0 then
    let r1 := set_bumperState
                (mkBumper (truthy (band (ToInt32U (data !! 7%nat)) (ToInt32Z 0x80)))
                          (right (_bumperState r))) r in
    let r2 := set_bumperState
                (mkBumper (left (_bumperState r1))
                          (truthy (band (ToInt32U (data !! 7%nat)) (ToInt32Z 0x40)))) r1 in
    Some (h, r2)
  else if looseEq device 17 && looseEq command 0 then
    let bit (m : Z) := truthy (band (ToInt32U (data !! 7%nat)) (ToInt32Z m)) in
    Some (h, set_touchState (mkTouch (bit 0x80) (bit 0x40) (bit 0x20) (bit 0x10)) r)
  else if looseEq device 4 && looseEq command 2 then
    let colorData := take 16 (drop 3 data) in    (* data.slice(3, 19) *)
    let decoded := colorDataToArray colorData in
    match colorSums decoded with
    | Some sums => Some (h, set_color decoded sums r)
    | None => None
    end
  else if looseEq device 2 && looseEq command 0 then
    Some (Host.emit "markerFinished" h, r)
  else if looseEq device 1 && looseEq command 8 then
    Some (Host.emit "motorFinished" h, r)
  else if looseEq device 1 && looseEq command 12 then
    Some (Host.emit "motorFinished" h, r)
  else if looseEq device 5 && looseEq command 0 then
    Some (Host.emit "soundFinished" h, r)
  else if looseEq device 5 && looseEq command 4 then
    Some (Host.emit "soundFinished" h, r)
  else Some (h, r).

Definition stopAll (now : Z) (r : t) : t :=
  if negb (isConnected r) then r
  else (sendPacket (num 0) (num 3) None now r).2.

End Root.

(** ** class Scratch3RootBlocks: the block layer *)

Module MathUtil.
(** Modelled from the spec: [MathUtil.clamp] of util/math-util.js is not
    among the sources; the specification says "Clamping is saturating,
    not erroring". *)
Definition clamp (n lo hi : Number) : Number := Math_min (Math_max n lo) hi.
End MathUtil.

(** The state a block runs in: the host and the peripheral of the block
    object. *)
Definition World : Type := Host.t * Root.t.

Section Scratch3RootBlocks.

(** [new TextEncoder('utf-8').encode], a facility of the platform. *)
Variable TextEncoder_encode : string -> list Z.

Definition strToArray (s : string) : list Number := map num (TextEncoder_encode s).

(** The promise every correlated block builds:
    [new Promise((resolve, reject) => {
       myEvents.on(signal, () => { resolve(); });
       setTimeout(() => { reject(reason); }, timeout); })]. *)
Definition signalPromise (signal reason : string) (timeout : Number) (h : Host.t) : nat * Host.t :=
  let '(p, h1) := Host.newPromise h in
  let h2 := Host.on signal (Host.Resolve p) h1 in
  (p, Host.setTimeout (Host.Reject p reason) timeout h2).

(** [new Promise(resolve => { setTimeout(() => { resolve(); }, BLESendInterval); })]. *)
Definition intervalPromise (h : Host.t) : nat * Host.t :=
  let '(p, h1) := Host.newPromise h in
  (p, Host.setTimeout (Host.Resolve p) (num BLESendInterval) h1).

(** Every block takes its arguments after [Cast.toNumber] (or [String]) and
    returns the index of the promise it hands back, or [None] where the
    source returns [undefined].  The undeclared variables [soundPromise],
    [drivePromise] and [markerPromise] of the source only carry the promise
    to the [return] statement; they are the [let]-bound indices here. *)

Definition playNote_payload (FREQUENCY DURATION : Number) : list Number :=
  let frequency := MathUtil.clamp FREQUENCY (num 20) (num 10000) in
  let duration := MathUtil.clamp (DURATION * num 1000)%Q (num 0) (num 65535) in
  (map num (int32toArray frequency) ++ map num (int16toArray duration)) ++ zeros 10.

Definition playNote (FREQUENCY DURATION : Number) (w : World) : option nat * World :=
  let duration := MathUtil.clamp (DURATION * num 1000)%Q (num 0) (num 65535) in
  let deviceID := num 5 in
  let commandID := num 0 in
  let payload := playNote_payload FREQUENCY DURATION in
  let r1 := (Root.sendPacket deviceID commandID (Some payload) (Host.now w.1) w.2).2 in
  let timeout := (duration + num 500)%Q in
  let '(soundPromise, h1) := signalPromise "soundFinished" "Sound Timeout" timeout w.1 in
  (Some soundPromise, (h1, r1)).

Definition sayText_payload (text : string) : list Number :=
  let payload := strToArray text in
  if (16 <? length payload)%nat then take 16 payload
  else
    let missingZeros := (16 - length payload)%nat in
    payload ++ zeros missingZeros.

Definition sayText (TEXT : string) (w : World) : option nat * World :=
  let text := TEXT in
  if (String.length text =? 0)%nat then (None, w)
  else
    let deviceID := num 5 in
    let commandID := num 4 in
    let payload := sayText_payload text in
    let r1 := (Root.sendPacket deviceID commandID (Some payload) (Host.now w.1) w.2).2 in
    let timeout := num 5000 in
    let '(soundPromise, h1) := signalPromise "soundFinished" "Sound Timeout" timeout w.1 in
    (Some soundPromise, (h1, r1)).

Definition driveDistance_payload (DISTANCE : Number) : list Number :=
  map num (int32toArray (DISTANCE * num 10)%Q) ++ zeros 12.

Definition driveDistance_timeout (DISTANCE : Number) : Number :=
  (DISTANCE * num 100 + num 5000)%Q.

Definition driveDistance (DISTANCE : Number) (w : World) : option nat * World :=
  let distance := DISTANCE in
  let deviceID := num 1 in
  let commandID := num 8 in
  let payload := driveDistance_payload distance in
  let r1 := (Root.sendPacket deviceID commandID (Some payload) (Host.now w.1) w.2).2 in
  let timeout := driveDistance_timeout distance in
  let '(drivePromise, h1) := signalPromise "motorFinished" "Motor Timeout" timeout w.1 in
  (Some drivePromise, (h1, r1)).

Definition rotateAngle_payload (ANGLE : Number) : list Number :=
  map num (int32toArray (ANGLE * num 10)%Q) ++ zeros 12.

Definition rotateAngle (ANGLE : Number) (w : World) : option nat * World :=
  let angle := ANGLE in
  let deviceID := num 1 in
  let commandID := num 12 in
  let payload := rotateAngle_payload angle in
  let r1 := (Root.sendPacket deviceID commandID (Some payload) (Host.now w.1) w.2).2 in
  let timeout := (angle * num 15 + num 5000)%Q in
  let '(drivePromise, h1) := signalPromise "motorFinished" "Motor Timeout" timeout w.1 in
  (Some drivePromise, (h1, r1)).

(** The [switch] of [setMarker]; [None] is the [default] branch. *)
Definition setMarker_payload (MARKER : string) : option (list Number) :=
  let payload := zeros 16 in
  if String.eqb MARKER "marker down" then Some (<[0%nat := num 0x01]> payload)
  else if String.eqb MARKER "marker up" then Some (<[0%nat := num 0x00]> payload)
  else if String.eqb MARKER "eraser down" then Some (<[0%nat := num 0x02]> payload)
  else None.

Definition setMarker (MARKER : string) (w : World) : option nat * World :=
  let deviceID := num 2 in
  let commandID := num 0 in
  match setMarker_payload MARKER with
  | None => (None, w)
  | Some payload =>
      let r1 := (Root.sendPacket deviceID commandID (Some payload) (Host.now w.1) w.2).2 in
      let timeout := num 5000 in
      let '(markerPromise, h1) := signalPromise "markerFinished" "Marker Timeout" timeout w.1 in
      (Some markerPromise, (h1, r1))
  end.

Definition setLightsRGB_payload (RED GREEN BLUE : Number) : list Number :=
  let max_val := num 100 in
  let min_val := num 0 in
  let red := Math_min max_val (Math_max min_val RED) in
  let green := Math_min max_val (Math_max min_val GREEN) in
  let blue := Math_min max_val (Math_max min_val BLUE) in
  let payload := zeros 16 in
  let payload := <[0%nat := num 1]> payload in
  let payload := <[1%nat := scaleBetween red min_val max_val (num 0) (num 255)]> payload in
  let payload := <[2%nat := scaleBetween green min_val max_val (num 0) (num 255)]> payload in
  <[3%nat := scaleBetween blue min_val max_val (num 0) (num 255)]> payload.

Definition setLightsRGB (RED GREEN BLUE : Number) (w : World) : option nat * World :=
  let deviceID := num 3 in
  let commandID := num 2 in
  let payload := setLightsRGB_payload RED GREEN BLUE in
  let r1 := (Root.sendPacket deviceID commandID (Some payload) (Host.now w.1) w.2).2 in
  let '(p, h1) := intervalPromise w.1 in
  (Some p, (h1, r1)).

Definition setSpeeds_payload (LEFT RIGHT : Number) : list Number :=
  let left := MathUtil.clamp (LEFT * num 10)%Q (num (-100)) (num 100) in
  let right := MathUtil.clamp (RIGHT * num 10)%Q (num (-100)) (num 100) in
  (map num (int32toArray left) ++ map num (int32toArray right)) ++ zeros 8.

Definition setSpeeds (LEFT RIGHT : Number) (w : World) : option nat * World :=
  let deviceID := num 1 in
  let commandID := num 4 in
  let payload := setSpeeds_payload LEFT RIGHT in
  let r1 := (Root.sendPacket deviceID commandID (Some payload) (Host.now w.1) w.2).2 in
  let '(p, h1) := intervalPromise w.1 in
  (Some p, (h1, r1)).

(** The send-based operations of the driver, with their arguments. *)
Inductive Operation : Type :=
| DriveDistance (DISTANCE : Number)
| RotateAngle (ANGLE : Number)
| SetSpeeds (LEFT RIGHT : Number)
| SetMarker (MARKER : string)
| SetLightsRGB (RED GREEN BLUE : Number)
| PlayNote (FREQUENCY DURATION : Number)
| SayText (TEXT : string)
| StopAll.

Definition invoke (op : Operation) (w : World) : option nat * World :=
  match op with
  | DriveDistance d => driveDistance d w
  | RotateAngle a => rotateAngle a w
  | SetSpeeds l r => setSpeeds l r w
  | SetMarker m => setMarker m w
  | SetLightsRGB r g b => setLightsRGB r g b w
  | PlayNote f d => playNote f d w
  | SayText s => sayText s w
  | StopAll => (None, (w.1, Root.stopAll (Host.now w.1) w.2))
  end.

End Scratch3RootBlocks.

(** How a call of an operation completes, with the signals, error texts and
    timeouts of the specification's table of correlated commands: drive
    distance "distance x 100 + 5000", rotate angle "angle x 15 + 5000", play
    tone "duration_ms + 500", say phrase and set marker "5000 (fixed)". *)
Inductive Completion : Type :=
| Immediate                      (* the call returns [undefined] *)
| AfterInterval                  (* a promise resolved after [BLESendInterval] *)
| Correlated (signal reason : string) (timeout : Number).

Definition completion (op : Operation) : Completion :=
  match op with
  | DriveDistance d => Correlated "motorFinished" "Motor Timeout" (d * num 100 + num 5000)%Q
  | RotateAngle a => Correlated "motorFinished" "Motor Timeout" (a * num 15 + num 5000)%Q
  | SetSpeeds _ _ => AfterInterval
  | SetMarker m =>
      if bool_decide (m = "marker down" \/ m = "marker up" \/ m = "eraser down")
      then Correlated "markerFinished" "Marker Timeout" (num 5000)
      else Immediate
  | SetLightsRGB _ _ _ => AfterInterval
  | PlayNote _ d =>
      Correlated "soundFinished" "Sound Timeout"
                 (MathUtil.clamp (d * num 1000)%Q (num 0) (num 65535) + num 500)%Q
  | SayText s =>
      if bool_decide (s = EmptyString) then Immediate
      else Correlated "soundFinished" "Sound Timeout" (num 5000)
  | StopAll => Immediate
  end.


(** ** The driver in its environment

    What happens to a running driver: time passes, a frame arrives from the
    peripheral, or the host application invokes an operation. *)

(** The signal an inbound frame makes [_onMessage] publish, if any. *)
Definition frameSignal (data : list Z) : option string :=
  let device := data !! 0%nat in
  let command := data !! 1%nat in
  if looseEq device 0 && looseEq command 4 then None
  else if looseEq device 12 && looseEq command 0 then None
  else if looseEq device 17 && looseEq command 0 then None
  else if looseEq device 4 && looseEq command 2 then None
  else if looseEq device 2 && looseEq command 0 then Some "markerFinished"%string
  else if looseEq device 1 && looseEq command 8 then Some "motorFinished"%string
  else if looseEq device 1 && looseEq command 12 then Some "motorFinished"%string
  else if looseEq device 5 && looseEq command 0 then Some "soundFinished"%string
  else if looseEq device 5 && looseEq command 4 then Some "soundFinished"%string
  else None.

Inductive Activity : Type :=
| Elapses (dt : Z)
| Receives (data : list Z)
| Invokes (op : Operation).

Definition act (TextEncoder_encode : string -> list Z) (a : Activity) (w : World) : World :=
  match a with
  | Elapses dt => (Host.advance dt w.1, w.2)
  | Receives data => default w (Root._onMessage data w.1 w.2)
  | Invokes op => (invoke TextEncoder_encode op w).2
  end.

Definition perform (TextEncoder_encode : string -> list Z) (acts : list Activity)
    (w : World) : World :=
  fold_left (fun w1 a => act TextEncoder_encode a w1) acts w.

(** What a pending operation can observe of an activity. *)
Definition observed (a : Activity) : list Host.Event :=
  match a with
  | Elapses dt => [Host.Advance dt]
  | Receives data =>
      match frameSignal data with
      | Some name => [Host.Emit name]
      | None => []
      end
  | Invokes _ => []
  end.

Definition observedTrace (acts : list Activity) : list Host.Event :=
  flat_map observed acts.

(** Sample states used to run the model. *)
Definition exhausted : RateLimiter.t := RateLimiter.mk 20 0 20.
Definition linked (l : RateLimiter.t) : Root.t :=
  Root.set_rateLimiter l (Root.set_ble (Some (BLE.mk true [])) (Root.new 0)).

(** The text encoder on 7-bit text, where UTF-8 is the character code. *)
Definition asciiEncode (s : string) : list Z :=
  map (fun c => Z.of_nat (Ascii.nat_of_ascii c)) (list_ascii_of_string s).

(** ** The query blocks (index.js lines 619-737)

    Each block reads the sensor state of the peripheral; its argument is the
    menu selector, a string. *)

Definition whenBumper (BUMPER : string) (r : Root.t) : bool :=
  if String.eqb BUMPER "any"
  then Root.left (Root._bumperState r) || Root.right (Root._bumperState r)
  else if String.eqb BUMPER "left" then Root.left (Root._bumperState r)
  else if String.eqb BUMPER "right" then Root.right (Root._bumperState r)
  else false.

Definition isBumper (BUMPER : string) (r : Root.t) : bool :=
  if String.eqb BUMPER "any"
  then Root.left (Root._bumperState r) || Root.right (Root._bumperState r)
  else if String.eqb BUMPER "left" then Root.left (Root._bumperState r)
  else if String.eqb BUMPER "right" then Root.right (Root._bumperState r)
  else false.

Definition whenTouch (TOUCH : string) (r : Root.t) : bool :=
  if String.eqb TOUCH "any"
  then Root.frontLeft (Root._touchState r) || Root.frontRight (Root._touchState r)
       || Root.rearLeft (Root._touchState r) || Root.rearRight (Root._touchState r)
  else if String.eqb TOUCH "front-left" then Root.frontLeft (Root._touchState r)
  else if String.eqb TOUCH "front-right" then Root.frontRight (Root._touchState r)
  else if String.eqb TOUCH "back-left" then Root.rearLeft (Root._touchState r)
  else if String.eqb TOUCH "back-right" then Root.rearRight (Root._touchState r)
  else false.

Definition isTouch (TOUCH : string) (r : Root.t) : bool :=
  if String.eqb TOUCH "any"
  then Root.frontLeft (Root._touchState r) || Root.frontRight (Root._touchState r)
       || Root.rearLeft (Root._touchState r) || Root.rearRight (Root._touchState r)
  else if String.eqb TOUCH "front-left" then Root.frontLeft (Root._touchState r)
  else if String.eqb TOUCH "front-right" then Root.frontRight (Root._touchState r)
  else if String.eqb TOUCH "back-left" then Root.rearLeft (Root._touchState r)
  else if String.eqb TOUCH "back-right" then Root.rearRight (Root._touchState r)
  else false.

Definition whenLight (LIGHT : string) (r : Root.t) : bool :=
  if String.eqb LIGHT "bright" then false
  else if String.eqb LIGHT "left" then false
  else if String.eqb LIGHT "right" then false
  else if String.eqb LIGHT "dark" then false
  else false.

(** [this._peripheral._colorSums[k] > minSum]; a missing slot reads
    [undefined], which compares false. *)
Definition sumAbove (sums : list Z) (k : nat) (minSum : Z) : bool :=
  match sums !! k with
  | Some n => minSum <? n
  | None => false
  end.

Definition whenColor (COLOR : string) (r : Root.t) : bool :=
  let minSum := 4 in
  if String.eqb COLOR "black" then sumAbove (Root._colorSums r) 1 minSum
  else if String.eqb COLOR "red" then sumAbove (Root._colorSums r) 2 minSum
  else if String.eqb COLOR "green" then sumAbove (Root._colorSums r) 3 minSum
  else if String.eqb COLOR "blue" then sumAbove (Root._colorSums r) 4 minSum
  else false.

(** ** [setLightsColor] (index.js lines 926-944)

    [Cast.toRgbColorObject] of util/cast.js is not among the sources: the
    block is given the three fields [rgb.r], [rgb.g] and [rgb.b] of its
    result. *)

Definition setLightsColor_payload (rgb_r rgb_g rgb_b : Number) : list Number :=
  let payload := zeros 16 in
  let payload := <[0%nat := num 1]> payload in
  let payload := <[1%nat := MathUtil.clamp rgb_r (num 0) (num 255)]> payload in
  let payload := <[2%nat := MathUtil.clamp rgb_g (num 0) (num 255)]> payload in
  <[3%nat := MathUtil.clamp rgb_b (num 0) (num 255)]> payload.

Definition setLightsColor (rgb_r rgb_g rgb_b : Number) (w : World) : option nat * World :=
  let deviceID := num 3 in
  let commandID := num 2 in
  let payload := setLightsColor_payload rgb_r rgb_g rgb_b in
  let r1 := (Root.sendPacket deviceID commandID (Some payload) (Host.now w.1) w.2).2 in
  let '(p, h1) := intervalPromise w.1 in
  (Some p, (h1, r1)).

(** ** Reading the driver's data back *)

(** How many of the values are equal to [k]. *)
Definition occurrences (k : Z) (values : list Z) : nat :=
  length (List.filter (fun v => v =? k) values).

(** The total of a histogram. *)
Definition histogramTotal (sums : list Z) : Z := fold_right Z.add 0 sums.

(** The device and command of the packet each operation sends (the first
    two elements handed to [sendPacket]). *)
Definition opHeader (op : Operation) : Z * Z :=
  match op with
  | DriveDistance _ => (1, 8)
  | RotateAngle _ => (1, 12)
  | SetSpeeds _ _ => (1, 4)
  | SetMarker _ => (2, 0)
  | SetLightsRGB _ _ _ => (3, 2)
  | PlayNote _ _ => (5, 0)
  | SayText _ => (5, 4)
  | StopAll => (0, 3)
  end.

(** The listener an invocation leaves on the shared emitter, if any. *)
Definition listenerOf (op : Operation) (p : nat) : list (string * Host.Callback) :=
  match completion op with
  | Correlated signal _ _ => [(signal, Host.Resolve p)]
  | _ => []
  end.

(** The number of listeners the activities of a trace register. *)
Definition listenersRegistered (acts : list Activity) : nat :=
  length (List.filter (fun a => match a with
                                | Invokes op =>
                                    match completion op with
                                    | Correlated _ _ _ => true
                                    | _ => false
                                    end
                                | _ => false
                                end) acts).

(** The (device, command) pairs [_onMessage] has a branch for. *)
Definition knownFrames : list (Z * Z) :=
  [(0, 4); (12, 0); (17, 0); (4, 2); (2, 0); (1, 8); (1, 12); (5, 0); (5, 4)].

(** The histogram loop read as a walk over the values themselves. *)
Definition tally (values : list Z) (sums : list Z) : option (list Z) :=
  fold_left (fun acc c => match acc with
                          | Some s => Root.increment c s
                          | None => None
                          end) values (Some sums).

(** The payload an invocation hands to [sendPacket]; [None] where the
    operation returns before sending ([setMarker] on an unknown selector,
    [sayText] on the empty text). *)
Definition opPayload (TextEncoder_encode : string -> list Z) (op : Operation)
    : option (list Number) :=
  match op with
  | DriveDistance d => Some (driveDistance_payload d)
  | RotateAngle a => Some (rotateAngle_payload a)
  | SetSpeeds l r => Some (setSpeeds_payload l r)
  | SetMarker m => setMarker_payload m
  | SetLightsRGB r g b => Some (setLightsRGB_payload r g b)
  | PlayNote f d => Some (playNote_payload f d)
  | SayText s =>
      if (String.length s =? 0)%nat then None
      else Some (sayText_payload TextEncoder_encode s)
  | StopAll => Some (zeros 16)
  end.

(** * Properties *)

(** ** Facts on the number conversions *)

Section Conversions.

Lemma trunc_num (n : Z) : trunc (num n) = n.
Proof. unfold trunc, num, inject_Z. simpl. apply Z.quot_1_r. Qed.

Lemma ToInt32_num (n : Z) : ToInt32 (num n) = ToInt32Z n.
Proof. unfold ToInt32. by rewrite trunc_num. Qed.

Lemma ToInt32Z_range (n : Z) : - 2 ^ 31 <= ToInt32Z n < 2 ^ 31.
Proof.
  unfold ToInt32Z.
  pose proof (Z.mod_pos_bound (n + 2 ^ 31) (2 ^ 32)) as Hb. lia.
Qed.

Lemma ToInt32Z_mod (n : Z) : ToInt32Z n mod 2 ^ 32 = n mod 2 ^ 32.
Proof.
  unfold ToInt32Z.
  rewrite Zminus_mod, Zmod_mod, <- Zminus_mod.
  f_equal. lia.
Qed.

Lemma ToInt32Z_small (n : Z) : - 2 ^ 31 <= n < 2 ^ 31 -> ToInt32Z n = n.
Proof. intros Hn. unfold ToInt32Z. rewrite Z.mod_small; lia. Qed.

Lemma ToInt32Z_low_bits (n : Z) (k : Z) :
  0 <= k <= 32 -> ToInt32Z n mod 2 ^ k = n mod 2 ^ k.
Proof.
  intros Hk.
  assert (H0 : 0 < 2 ^ k) by (apply Z.pow_pos_nonneg; lia).
  assert (Hd : (2 ^ k | 2 ^ 32)).
  { exists (2 ^ (32 - k)). rewrite <- Z.pow_add_r by lia. f_equal. lia. }
  rewrite <- (Z.mod_mod_divide (ToInt32Z n) (2 ^ 32) (2 ^ k)) by exact Hd.
  rewrite <- (Z.mod_mod_divide n (2 ^ 32) (2 ^ k)) by exact Hd.
  by rewrite ToInt32Z_mod.
Qed.

End Conversions.

(** ** Masking and shifting *)

Section Masks.

Variable m : Z.

Lemma low_byte : band m (ToInt32Z 0x000000ff) = m mod 2 ^ 8.
Proof. unfold band. change (ToInt32Z 0x000000ff) with (Z.ones 8). apply Z.land_ones. lia. Qed.

Lemma byte_at_8 : sar (band m (ToInt32Z 0x0000ff00)) 8 = (m / 2 ^ 8) mod 2 ^ 8.
Proof.
  unfold sar, band. rewrite Z.shiftr_land.
  change (Z.shiftr (ToInt32Z 0x0000ff00) 8) with (Z.ones 8).
  rewrite Z.land_ones, Z.shiftr_div_pow2 by lia. reflexivity.
Qed.

Lemma byte_at_16 : sar (band m (ToInt32Z 0x00ff0000)) 16 = (m / 2 ^ 16) mod 2 ^ 8.
Proof.
  unfold sar, band. rewrite Z.shiftr_land.
  change (Z.shiftr (ToInt32Z 0x00ff0000) 16) with (Z.ones 8).
  rewrite Z.land_ones, Z.shiftr_div_pow2 by lia. reflexivity.
Qed.

(** The mask [0xff000000] is the negative 32-bit integer [-2^24], and [>>]
    propagates its sign: the top element is a signed quotient. *)
Lemma top_at_24 : sar (band m (ToInt32Z 0xff000000)) 24 = m / 2 ^ 24.
Proof.
  unfold sar, band. rewrite Z.shiftr_land.
  change (Z.shiftr (ToInt32Z 0xff000000) 24) with (-1).
  rewrite Z.land_m1_r, Z.shiftr_div_pow2 by lia. reflexivity.
Qed.

Lemma high_nibble : sar (band m (ToInt32Z 0xf0)) 4 = (m / 2 ^ 4) mod 2 ^ 4.
Proof.
  unfold sar, band. rewrite Z.shiftr_land.
  change (Z.shiftr (ToInt32Z 0xf0) 4) with (Z.ones 4).
  rewrite Z.land_ones, Z.shiftr_div_pow2 by lia. reflexivity.
Qed.

Lemma low_nibble : band m (ToInt32Z 0x0f) = m mod 2 ^ 4.
Proof. unfold band. change (ToInt32Z 0x0f) with (Z.ones 4). apply Z.land_ones. lia. Qed.

Lemma single_bit (k : Z) :
  0 <= k < 31 -> truthy (band m (ToInt32Z (2 ^ k))) = Z.testbit m k.
Proof.
  intros Hk. unfold truthy, band.
  rewrite ToInt32Z_small.
  2:{ split.
      - pose proof (Z.pow_pos_nonneg 2 k). lia.
      - apply Z.pow_lt_mono_r; lia. }
  destruct (Z.testbit m k) eqn:Hb.
  - apply negb_true_iff, Z.eqb_neq. intros H0.
    assert (Z.testbit (Z.land m (2 ^ k)) k = true) as Ht.
    { rewrite Z.land_spec, Hb, Z.pow2_bits_true by lia. reflexivity. }
    rewrite H0, Z.bits_0 in Ht. discriminate.
  - apply negb_false_iff, Z.eqb_eq. apply Z.bits_inj'. intros j Hj.
    rewrite Z.land_spec, Z.bits_0.
    destruct (Z.eq_dec j k) as [->|Hne].
    + rewrite Hb. reflexivity.
    + rewrite Z.pow2_bits_false by lia. apply andb_false_r.
Qed.

End Masks.

(** Closes a goal [Forall is_byte [a mod 2^8; ...]]. *)
Ltac bytes_by_mod :=
  repeat apply Forall_cons_2; try apply Forall_nil_2; unfold is_byte;
  match goal with
  | |- 0 <= ?a mod ?b <= _ => pose proof (Z.mod_pos_bound a b); lia
  end.

Lemma int32toArray_elements (x : Number) :
  int32toArray x =
    [ ToInt32 x / 2 ^ 24; (ToInt32 x / 2 ^ 16) mod 2 ^ 8;
      (ToInt32 x / 2 ^ 8) mod 2 ^ 8; ToInt32 x mod 2 ^ 8 ].
Proof.
  unfold int32toArray.
  by rewrite top_at_24, byte_at_16, byte_at_8, low_byte.
Qed.

Lemma int16toArray_elements (x : Number) :
  int16toArray x = [ (ToInt32 x / 2 ^ 8) mod 2 ^ 8; ToInt32 x mod 2 ^ 8 ].
Proof. unfold int16toArray. by rewrite byte_at_8, low_byte. Qed.

Lemma split_bytes (m : Z) :
  ((m / 2 ^ 24 * 256 + (m / 2 ^ 16) mod 2 ^ 8) * 256 + (m / 2 ^ 8) mod 2 ^ 8) * 256
    + m mod 2 ^ 8 = m.
Proof.
  pose proof (Z.div_mod m (2 ^ 8) ltac:(lia)) as H1.
  pose proof (Z.div_mod (m / 2 ^ 8) (2 ^ 8) ltac:(lia)) as H2.
  pose proof (Z.div_mod (m / 2 ^ 16) (2 ^ 8) ltac:(lia)) as H3.
  rewrite Z.div_div in H2 by lia.
  rewrite (Z.div_div m (2 ^ 16) (2 ^ 8)) in H3 by lia.
  change (2 ^ 8 * 2 ^ 8) with (2 ^ 16) in H2.
  change (2 ^ 16 * 2 ^ 8) with (2 ^ 24) in H3.
  lia.
Qed.

(** Reading the four elements back big-endian gives the signed 32-bit value
    of the input. *)
Lemma int32toArray_decodeBE (x : Number) : decodeBE (int32toArray x) = ToInt32 x.
Proof.
  rewrite int32toArray_elements. unfold decodeBE. simpl.
  apply split_bytes.
Qed.

(** The three low elements are always bytes; the top one is a byte exactly
    when the 32-bit value is not negative. *)
Lemma int32toArray_low_bytes (x : Number) :
  Forall is_byte (drop 1 (int32toArray x)).
Proof.
  rewrite int32toArray_elements. simpl.
  bytes_by_mod.
Qed.

Lemma int32toArray_top (x : Number) :
  int32toArray x !! 0%nat = Some (ToInt32 x / 2 ^ 24) /\
  -128 <= ToInt32 x / 2 ^ 24 <= 127 /\
  (is_byte (ToInt32 x / 2 ^ 24) <-> 0 <= ToInt32 x).
Proof.
  rewrite int32toArray_elements. split; [reflexivity|].
  pose proof (ToInt32Z_range (trunc x)) as Hr. fold (ToInt32 x) in Hr.
  assert (-128 <= ToInt32 x / 2 ^ 24 <= 127) as Hq.
  { split.
    - apply Z.div_le_lower_bound; lia.
    - apply Z.lt_succ_r. apply Z.div_lt_upper_bound; lia. }
  split; [exact Hq|].
  unfold is_byte. split.
  - intros [H0 _]. destruct (Z_lt_le_dec (ToInt32 x) 0) as [Hneg|]; [|lia].
    assert (ToInt32 x / 2 ^ 24 < 0) by (apply Z.div_lt_upper_bound; lia). lia.
  - intros H0. split; [apply Z.div_pos; lia | lia].
Qed.

(** On the non-negative half of the 32-bit range the encoding is the
    big-endian byte sequence of the number. *)
Lemma int32toArray_nonnegative (n : Z) :
  0 <= n < 2 ^ 31 ->
  length (int32toArray (num n)) = 4%nat /\
  Forall is_byte (int32toArray (num n)) /\
  decodeBE (int32toArray (num n)) = n mod 2 ^ 32.
Proof.
  intros Hn. split; [reflexivity|].
  assert (ToInt32 (num n) = n) as Hv by (rewrite ToInt32_num; apply ToInt32Z_small; lia).
  split.
  - pose proof (int32toArray_low_bytes (num n)) as Hl.
    pose proof (int32toArray_top (num n)) as (Ht & _ & Hb).
    rewrite int32toArray_elements in *. simpl in Hl.
    constructor; [apply Hb; lia | exact Hl].
  - rewrite int32toArray_decodeBE, Hv. symmetry. apply Z.mod_small. lia.
Qed.

Lemma int32toArray_congruent (n : Z) :
  decodeBE (int32toArray (num n)) mod 2 ^ 32 = n mod 2 ^ 32.
Proof. rewrite int32toArray_decodeBE, ToInt32_num. apply ToInt32Z_mod. Qed.

Lemma int16toArray_roundtrip (n : Z) :
  length (int16toArray (num n)) = 2%nat /\
  Forall is_byte (int16toArray (num n)) /\
  decodeBE (int16toArray (num n)) = n mod 2 ^ 16.
Proof.
  split; [reflexivity|].
  rewrite int16toArray_elements. split.
  - bytes_by_mod.
  - unfold decodeBE. simpl. rewrite ToInt32_num.
    rewrite <- (ToInt32Z_low_bits n 16) by lia.
    set (m := ToInt32Z n).
    pose proof (Z.div_mod m (2 ^ 8) ltac:(lia)) as H1.
    pose proof (Z.div_mod (m / 2 ^ 8) (2 ^ 8) ltac:(lia)) as H2.
    rewrite Z.div_div in H2 by lia. change (2 ^ 8 * 2 ^ 8) with (2 ^ 16) in H2.
    pose proof (Z.div_mod m (2 ^ 16) ltac:(lia)) as H3.
    pose proof (Z.mod_pos_bound m (2 ^ 8) ltac:(lia)).
    pose proof (Z.mod_pos_bound (m / 2 ^ 8) (2 ^ 8) ltac:(lia)).
    pose proof (Z.mod_pos_bound m (2 ^ 16) ltac:(lia)).
    lia.
Qed.

(** C4 (the code falls short of it).  The claim asks that [int32toArray]
    produce, for every integer, four bytes whose big-endian reading is the
    integer modulo 2^32.  For -100, the value [driveDistance] encodes when
    asked to reverse by 10 cm, the first element is -1 rather than the byte
    255: the mask [0xff000000] is a negative 32-bit integer and [>>]
    propagates its sign.  The elements then read back as -100, not as
    (-100) mod 2^32 = 4294967196. *)
Theorem int32toArray_reverse_drive :
  int32toArray (num (-100)) = [-1; 255; 255; 156] /\
  ~ Forall is_byte (int32toArray (num (-100))) /\
  decodeBE (int32toArray (num (-100))) = -100 /\
  (-100) mod 2 ^ 32 = 4294967196.
Proof.
  assert (int32toArray (num (-100)) = [-1; 255; 255; 156]) as E by reflexivity.
  rewrite E. split; [reflexivity|]. split.
  - intros H. apply Forall_inv in H. unfold is_byte in H. lia.
  - split; reflexivity.
Qed.

(** ** The packet layout *)

Lemma packet_unfold (deviceID commandID : Number) (payload : list Number) :
  Root.packet deviceID commandID payload
  = deviceID :: commandID :: num 0 :: payload ++ [num 0].
Proof. reflexivity. Qed.

Lemma packet_length (deviceID commandID : Number) (payload : list Number) :
  length (Root.packet deviceID commandID payload) = (length payload + 4)%nat.
Proof. rewrite packet_unfold. simpl. rewrite length_app. simpl. lia. Qed.

(** C2, as stated, fails: a payload of one element is within the bound of
    16, yet its packet has 5 elements, not 20; nothing is padded. *)
Lemma packet_short_payload_not_padded :
  (length [num 7] <= 16)%nat /\
  Root.packet (num 1) (num 8) [num 7] = [num 1; num 8; num 0; num 7; num 0] /\
  length (Root.packet (num 1) (num 8) [num 7]) <> 20%nat.
Proof. split; [simpl; lia|]. split; [reflexivity|]. simpl. lia. Qed.

(** C2, amended.  For every deviceID, commandID and payload, the packet
    handed to [send] is [deviceID, commandID, packetID = 0], then the payload
    as given, then [checksum = 0]: it has as many elements as the payload plus
    four, the payload sits unpadded from offset 3, and the checksum follows
    it.  The packet has exactly 20 elements if and only if the payload has
    exactly 16, which is the length of the default payload. *)
Theorem packet_layout (deviceID commandID : Number) (payload : list Number) :
  Root.packet deviceID commandID payload
    = [deviceID; commandID; num 0] ++ payload ++ [num 0] /\
  length (Root.packet deviceID commandID payload) = (length payload + 4)%nat /\
  take (length payload) (drop 3 (Root.packet deviceID commandID payload)) = payload /\
  Root.packet deviceID commandID payload !! (3 + length payload)%nat = Some (num 0) /\
  (length (Root.packet deviceID commandID payload) = 20%nat <-> length payload = 16%nat) /\
  length (default (zeros 16) (@None (list Number))) = 16%nat.
Proof.
  split; [reflexivity|]. split; [apply packet_length|].
  rewrite packet_unfold. repeat split.
  - change (drop 3 (deviceID :: commandID :: num 0 :: payload ++ [num 0])) with (payload ++ [num 0]).
    apply take_app_length.
  - change ((payload ++ [num 0]) !! (0 + length payload)%nat = Some (num 0)).
    rewrite lookup_app_r by lia. by replace (0 + length payload - length payload)%nat with 0%nat by lia.
  - rewrite <- packet_unfold, packet_length. lia.
  - rewrite <- packet_unfold, packet_length. lia.
Qed.

(** ** The colour decoding *)


Lemma colorDataToArray_closed (dataIn : list Z) :
  colorDataToArray dataIn
  = flat_map (fun i => [hi_nibble (dataIn !! i); lo_nibble (dataIn !! i)]) (seq 0 16).
Proof.
  unfold colorDataToArray, colorDataToArray_step, hi_nibble, lo_nibble. simpl.
  by rewrite !high_nibble, !low_nibble.
Qed.

Lemma colorDataToArray_length (dataIn : list Z) : length (colorDataToArray dataIn) = 32%nat.
Proof. by rewrite colorDataToArray_closed. Qed.


Lemma colorDataToArray_range (dataIn : list Z) : Forall is_color (colorDataToArray dataIn).
Proof.
  rewrite colorDataToArray_closed.
  apply Forall_flat_map, Forall_forall. intros i _.
  unfold hi_nibble, lo_nibble, is_color.
  repeat apply Forall_cons_2; try apply Forall_nil_2;
    match goal with |- 0 <= ?a mod ?b <= _ => pose proof (Z.mod_pos_bound a b); lia end.
Qed.

Lemma increment_in_range (c : Z) (sums : list Z) :
  0 <= c < Z.of_nat (length sums) ->
  Root.increment c sums = Some (alter Z.succ (Z.to_nat c) sums).
Proof.
  intros Hc. unfold Root.increment.
  destruct (0 <=? c) eqn:H0; [|lia].
  destruct (c <? Z.of_nat (length sums)) eqn:H1; [reflexivity|lia].
Qed.

Lemma increment_Some (c : Z) (sums sums' : list Z) :
  Root.increment c sums = Some sums' ->
  0 <= c < Z.of_nat (length sums) /\ length sums' = length sums.
Proof.
  unfold Root.increment. intros H.
  destruct (0 <=? c) eqn:H0; [|discriminate].
  destruct (c <? Z.of_nat (length sums)) eqn:H1; [|discriminate].
  simpl in H. injection H as <-. rewrite length_alter. lia.
Qed.

(** The histogram loop over any prefix of the indices, started from a
    16-slot array, stays inside the array when every colour is below 16. *)
Lemma histogram_loop_in_bounds (colorData : list Z) (idx : list nat) (sums : list Z) :
  Forall is_color colorData ->
  Forall (fun i => (i < length colorData)%nat) idx ->
  length sums = 16%nat ->
  exists sums', 
    fold_left (fun acc i =>
                 match acc, colorData !! i with
                 | Some s, Some detectedColor => Root.increment detectedColor s
                 | _, _ => None
                 end) idx (Some sums) = Some sums'
    /\ length sums' = 16%nat.
Proof.
  intros Hc. revert sums. induction idx as [|i idx IH]; intros sums Hi Hl.
  - exists sums. by split.
  - apply Forall_cons in Hi as [Hi Hidx]. simpl.
    destruct (lookup_lt_is_Some_2 colorData i Hi) as [c Hci]. rewrite Hci.
    assert (is_color c) as Hcc.
    { eapply Forall_forall in Hc; [exact Hc|]. by eapply list_elem_of_lookup_2. }
    unfold is_color in Hcc.
    rewrite increment_in_range by lia.
    apply IH; [exact Hidx|]. by rewrite length_alter.
Qed.

Lemma colorSums_decoded (dataIn : list Z) :
  exists sums, Root.colorSums (colorDataToArray dataIn) = Some sums /\ length sums = 16%nat.
Proof.
  unfold Root.colorSums.
  apply histogram_loop_in_bounds.
  - apply colorDataToArray_range.
  - rewrite colorDataToArray_length. apply Forall_forall. intros i Hi.
    apply list_elem_of_In, in_seq in Hi. lia.
  - reflexivity.
Qed.

(** C10.  For every input of the colour decoding (in particular every 16
    bytes), the result has 32 values, each of them in [0, 15]; the histogram
    loop of the colour-scan handler therefore never leaves the 16 slots of
    the histogram ([Root.colorSums] returns an array, of length 16), and the
    handler of inbound frames is defined on every frame. *)
Theorem color_scan_histogram_in_bounds (dataIn : list Z) :
  length (colorDataToArray dataIn) = 32%nat /\
  Forall (fun v => 0 <= v <= 15) (colorDataToArray dataIn) /\
  (exists sums, Root.colorSums (colorDataToArray dataIn) = Some sums /\ length sums = 16%nat) /\
  (forall (data : list Z) (h : Host.t) (r : Root.t), is_Some (Root._onMessage data h r)).
Proof.
  split; [apply colorDataToArray_length|].
  split; [apply colorDataToArray_range|].
  split; [apply colorSums_decoded|].
  intros data h r. unfold Root._onMessage.
  destruct (colorSums_decoded (take 16 (drop 3 data))) as (sums & -> & _).
  repeat (match goal with |- is_Some (if ?c then _ else _) => destruct c end; [by eexists|]).
  by eexists.
Qed.

(** ** Inbound frames *)

Lemma looseEq_Some (x : option Z) (k : Z) : x = Some k -> looseEq x k = true.
Proof. intros ->. simpl. apply Z.eqb_refl. Qed.

Lemma ToInt32U_byte (b : Z) : is_byte b -> ToInt32U (Some b) = b.
Proof. unfold is_byte. intros Hb. simpl. apply ToInt32Z_small. lia. Qed.

(** C7.  For every inbound frame with deviceID 4 and commandID 2 whose 16
    payload bytes at offsets 3..18 all equal 0x11, the decoded colour array is
    32 values all equal to 1, the recomputed histogram has 32 in bin 1 and 0
    in every other bin, and the handler stores exactly these.  In general
    each input byte yields its high nibble, then its low nibble. *)
Theorem color_scan_all_black (data : list Z) (h : Host.t) (r : Root.t) :
  data !! 0%nat = Some 4 ->
  data !! 1%nat = Some 2 ->
  take 16 (drop 3 data) = replicate 16 0x11 ->
  colorDataToArray (take 16 (drop 3 data)) = replicate 32 1 /\
  Root.colorSums (replicate 32 1) = Some (<[1%nat := 32]> (replicate 16 0)) /\
  Root._onMessage data h r
    = Some (h, Root.set_color (replicate 32 1) (<[1%nat := 32]> (replicate 16 0)) r) /\
  (forall dataIn : list Z,
      colorDataToArray dataIn
      = flat_map (fun i => [hi_nibble (dataIn !! i); lo_nibble (dataIn !! i)]) (seq 0 16)).
Proof.
  intros Hd Hc Hp.
  assert (colorDataToArray (take 16 (drop 3 data)) = replicate 32 1) as Hdec
    by (rewrite Hp; reflexivity).
  split; [exact Hdec|]. split; [reflexivity|]. split; [|apply colorDataToArray_closed].
  unfold Root._onMessage. rewrite Hd, Hc, Hdec. reflexivity.
Qed.

Lemma color_scan_all_black_witness :
  Root._onMessage ([4; 2; 0] ++ replicate 16 0x11 ++ [0]) Host.init (Root.new 0)
  = Some (Host.init,
          Root.set_color (replicate 32 1) (<[1%nat := 32]> (replicate 16 0)) (Root.new 0)).
Proof.
  apply (color_scan_all_black ([4; 2; 0] ++ replicate 16 0x11 ++ [0]) Host.init (Root.new 0));
    reflexivity.
Defined.



(** ** Clamping and rescaling *)

Lemma clamp_percent_saturate (x : Number) :
  (Math_min (num 100) (Math_max (num 0) x) == saturate (num 0) (num 100) x)%Q.
Proof.
  unfold Math_min, Math_max, saturate.
  destruct (Qle_bool x (num 0)) eqn:H0.
  - apply Qle_bool_iff in H0.
    rewrite (Q.max_l (num 0) x) by exact H0.
    apply Q.min_r. unfold num. discriminate.
  - assert (num 0 < x)%Q as Hpos.
    { apply Qnot_le_lt. intros H. apply Qle_bool_iff in H. congruence. }
    rewrite (Q.max_r (num 0) x) by (apply Qlt_le_weak; exact Hpos).
    destruct (Qle_bool (num 100) x) eqn:H1.
    + apply Qle_bool_iff in H1. apply Q.min_l. exact H1.
    + apply Q.min_r. apply Qlt_le_weak, Qnot_le_lt.
      intros H. apply Qle_bool_iff in H. congruence.
Qed.

Lemma saturate_percent_range (x : Number) :
  (num 0 <= saturate (num 0) (num 100) x <= num 100)%Q.
Proof.
  unfold saturate.
  destruct (Qle_bool x (num 0)) eqn:H0; [split; unfold num; discriminate|].
  destruct (Qle_bool (num 100) x) eqn:H1; [split; unfold num; discriminate|].
  split; apply Qlt_le_weak, Qnot_le_lt; intros H; apply Qle_bool_iff in H; congruence.
Qed.

Lemma scaleBetween_percent (c : Number) :
  (scaleBetween c (num 0) (num 100) (num 0) (num 255) == num 255 * c / num 100)%Q.
Proof. unfold scaleBetween, num. field. Qed.

Lemma scaled_channel (x : Number) :
  (scaleBetween (Math_min (num 100) (Math_max (num 0) x)) (num 0) (num 100) (num 0) (num 255)
   == percentToByte x)%Q.
Proof.
  rewrite scaleBetween_percent. unfold percentToByte.
  by rewrite clamp_percent_saturate.
Qed.

Lemma percentToByte_range (x : Number) : (num 0 <= percentToByte x <= num 255)%Q.
Proof.
  unfold percentToByte.
  destruct (saturate_percent_range x) as [Hlo Hhi].
  set (c := saturate (num 0) (num 100) x) in *.
  assert (num 255 * c / num 100 == (51 # 20) * c)%Q as -> by (unfold num; field).
  split.
  - apply Qmult_le_0_compat; [discriminate | exact Hlo].
  - assert (num 255 == (51 # 20) * num 100)%Q as -> by reflexivity.
    apply Qmult_le_l; [reflexivity | exact Hhi].
Qed.

Lemma setLightsRGB_payload_unfold (RED GREEN BLUE : Number) :
  setLightsRGB_payload RED GREEN BLUE
  = [ num 1;
      scaleBetween (Math_min (num 100) (Math_max (num 0) RED)) (num 0) (num 100) (num 0) (num 255);
      scaleBetween (Math_min (num 100) (Math_max (num 0) GREEN)) (num 0) (num 100) (num 0) (num 255);
      scaleBetween (Math_min (num 100) (Math_max (num 0) BLUE)) (num 0) (num 100) (num 0) (num 255) ]
    ++ zeros 12.
Proof. reflexivity. Qed.

(** ** The send path *)

Lemma okayToSend_rejects_unchanged (now : Z) (l : RateLimiter.t) :
  0 < RateLimiter.maxCount l ->
  (RateLimiter.okayToSend now l).1 = false ->
  (RateLimiter.okayToSend now l).2 = l.
Proof.
  intros Hmax. unfold RateLimiter.okayToSend, RateLimiter.rollover.
  destruct (RateLimiter.windowStart l + RateLimiter.windowLength <=? now) eqn:Hr; simpl.
  - destruct (RateLimiter.maxCount l <=? 0) eqn:H0; [lia | discriminate].
  - destruct (RateLimiter.maxCount l <=? RateLimiter.count l); [reflexivity | discriminate].
Qed.

Lemma set_rateLimiter_same (r : Root.t) : Root.set_rateLimiter (Root._rateLimiter r) r = r.
Proof. by destruct r. Qed.

Lemma isConnected_ble (r : Root.t) :
  Root.isConnected r = true -> exists b, Root._ble r = Some b /\ BLE.connected b = true.
Proof. unfold Root.isConnected. destruct (Root._ble r) as [b|]; [eauto | discriminate]. Qed.

Lemma send_disconnected (message : list Number) (useLimiter : bool) (now : Z) (r : Root.t) :
  Root.isConnected r = false -> Root.send message useLimiter now r = (Root.ResolvedNoop, r).
Proof. intros H. unfold Root.send. by rewrite H. Qed.

Lemma send_writes (message : list Number) (useLimiter : bool) (now : Z) (r : Root.t) :
  Root.writes (Root.send message useLimiter now r).2
  = if Root.isConnected r
       && (negb useLimiter || (RateLimiter.okayToSend now (Root._rateLimiter r)).1)
    then Root.writes r ++ [Root.writeOf message]
    else Root.writes r.
Proof.
  unfold Root.send.
  destruct (Root.isConnected r) eqn:Hc; simpl; [|reflexivity].
  destruct (isConnected_ble r Hc) as (b & Hb & _).
  destruct useLimiter; simpl.
  - destruct (RateLimiter.okayToSend now (Root._rateLimiter r)) as [ok l]. simpl.
    destruct ok; simpl.
    + unfold Root.write, Root.writes. simpl. by rewrite Hb.
    + unfold Root.writes. simpl. reflexivity.
  - unfold Root.write, Root.writes. by rewrite Hb.
Qed.

Lemma sendPacket_writes (d c : Number) (payload : option (list Number)) (now : Z) (r : Root.t) :
  Root.writes (Root.sendPacket d c payload now r).2
  = if Root.isConnected r && (RateLimiter.okayToSend now (Root._rateLimiter r)).1
    then Root.writes r ++ [Root.writeOf (Root.packet d c (default (zeros 16) payload))]
    else Root.writes r.
Proof. unfold Root.sendPacket. by rewrite send_writes. Qed.

Lemma sendPacket_disconnected (d c : Number) (payload : option (list Number)) (now : Z) (r : Root.t) :
  Root.isConnected r = false ->
  Root.sendPacket d c payload now r = (Root.ResolvedNoop, r).
Proof. intros H. unfold Root.sendPacket. by apply send_disconnected. Qed.

(** C9.  For every RGB input of [setLightsRGB], payload element 0 is 1 and
    elements 1..3 are the three channels, each saturated to [0, 100] and then
    rescaled linearly to [0, 255] ([percentToByte]); the packet written when
    the send goes through carries exactly this payload.  Red = 150 gives the
    same payload as red = 100, with 255 in the red element. *)
Theorem setLightsRGB_clamps_then_scales (RED GREEN BLUE : Number) :
  (exists r g b : Number,
      setLightsRGB_payload RED GREEN BLUE = [num 1; r; g; b] ++ zeros 12 /\
      (r == percentToByte RED)%Q /\ (g == percentToByte GREEN)%Q /\
      (b == percentToByte BLUE)%Q /\
      (num 0 <= r <= num 255)%Q /\ (num 0 <= g <= num 255)%Q /\ (num 0 <= b <= num 255)%Q) /\
  (forall w : World,
      Root.writes (setLightsRGB RED GREEN BLUE w).2.2
      = if Root.isConnected w.2
           && (RateLimiter.okayToSend (Host.now w.1) (Root._rateLimiter w.2)).1
        then Root.writes w.2
             ++ [Root.writeOf (Root.packet (num 3) (num 2) (setLightsRGB_payload RED GREEN BLUE))]
        else Root.writes w.2) /\
  setLightsRGB_payload (num 150) GREEN BLUE = setLightsRGB_payload (num 100) GREEN BLUE /\
  (percentToByte (num 150) == num 255)%Q /\
  setLightsRGB_payload (num 150) GREEN BLUE !! 1%nat = Some (25500 # 100) /\
  (25500 # 100 == num 255)%Q.
Proof.
  split.
  { rewrite setLightsRGB_payload_unfold. do 3 eexists. split; [reflexivity|].
    rewrite !scaled_channel.
    repeat split; try reflexivity; apply percentToByte_range. }
  split.
  { intros [h r]. unfold setLightsRGB. simpl.
    destruct (intervalPromise h) as [p h1]. simpl. apply sendPacket_writes. }
  repeat split; reflexivity.
Qed.

(** C6.  For every message, [send] returns the resolved no-op promise and
    leaves the session untouched when the peripheral is not connected, and
    also when it is connected, the limiter is used and the limiter rejects
    (nothing is written, nothing is reported); in every other case the
    message is forwarded to the transport's write, whose promise is
    returned. *)
Theorem send_three_outcomes (message : list Number) (useLimiter : bool) (now : Z) (r : Root.t) :
  RateLimiter.maxCount (Root._rateLimiter r) = BLESendRateMax ->
  (Root.isConnected r = false ->
   Root.send message useLimiter now r = (Root.ResolvedNoop, r)) /\
  (Root.isConnected r = true ->
   useLimiter = true ->
   (RateLimiter.okayToSend now (Root._rateLimiter r)).1 = false ->
   Root.send message useLimiter now r = (Root.ResolvedNoop, r)) /\
  (Root.isConnected r = true ->
   useLimiter = false \/ (RateLimiter.okayToSend now (Root._rateLimiter r)).1 = true ->
   exists b : BLE.t,
     Root._ble r = Some b /\
     Root.send message useLimiter now r
     = (Root.WritePromise,
        Root.set_ble
          (Some (BLE.mk (BLE.connected b) (BLE.written b ++ [Root.writeOf message])))
          (if useLimiter
           then Root.set_rateLimiter (RateLimiter.okayToSend now (Root._rateLimiter r)).2 r
           else r))).
Proof.
  intros Hmax. split; [apply send_disconnected|]. split.
  - intros Hc -> Hrej. unfold Root.send. rewrite Hc. simpl.
    pose proof (okayToSend_rejects_unchanged now (Root._rateLimiter r)) as Hsame.
    destruct (RateLimiter.okayToSend now (Root._rateLimiter r)) as [ok l].
    simpl in *. subst ok. simpl.
    rewrite Hsame; [by rewrite set_rateLimiter_same | rewrite Hmax; reflexivity | reflexivity].
  - intros Hc Hfw. destruct (isConnected_ble r Hc) as (b & Hb & _).
    exists b. split; [exact Hb|].
    unfold Root.send. rewrite Hc. simpl.
    destruct useLimiter.
    + destruct Hfw as [Hfw|Hfw]; [discriminate|].
      destruct (RateLimiter.okayToSend now (Root._rateLimiter r)) as [ok l].
      simpl in *. subst ok. simpl. unfold Root.write. simpl. by rewrite Hb.
    + unfold Root.write. by rewrite Hb.
Qed.

Lemma send_three_outcomes_witness :
  Root.send [num 1] true 5 (Root.new 0) = (Root.ResolvedNoop, Root.new 0) /\
  Root.send [num 1] true 5 (linked exhausted) = (Root.ResolvedNoop, linked exhausted) /\
  Root.writes (Root.send [num 1] true 5 (linked (RateLimiter.new 20 0))).2
    = [Root.writeOf [num 1]].
Proof.
  split; [|split].
  - destruct (send_three_outcomes [num 1] true 5 (Root.new 0) eq_refl) as (H & _ & _).
    exact (H eq_refl).
  - destruct (send_three_outcomes [num 1] true 5 (linked exhausted) eq_refl) as (_ & H & _).
    exact (H eq_refl eq_refl eq_refl).
  - destruct (send_three_outcomes [num 1] true 5 (linked (RateLimiter.new 20 0)) eq_refl)
      as (_ & _ & H).
    destruct (H eq_refl (or_intror eq_refl)) as (b & Hb & ->).
    injection Hb as <-. reflexivity.
Defined.

(** ** The rate limiter *)

Section Limiter.

Import RateLimiter.












End Limiter.



(** ** Promises, listeners and timers *)

Section HostFacts.

Import Host.

Lemma settle_frame (p : nat) (s : Settlement) (h : t) :
  now (settle p s h) = now h /\ myEvents (settle p s h) = myEvents h /\
  timers (settle p s h) = timers h /\
  length (promises (settle p s h)) = length (promises h).
Proof.
  unfold settle. destruct (promises h !! p) as [[]|]; simpl; repeat split; try done.
  apply length_insert.
Qed.

Lemma state_settle_ne (p q : nat) (s : Settlement) (h : t) :
  p <> q -> state p (settle q s h) = state p h.
Proof.
  intros Hne. unfold settle, state.
  destruct (promises h !! q) as [[]|]; simpl; try done.
  by apply list_lookup_insert_ne.
Qed.

Lemma state_settle_eq (p : nat) (s : Settlement) (h : t) :
  state p (settle p s h)
  = match state p h with Some Pending => Some s | o => o end.
Proof.
  unfold settle, state.
  destruct (promises h !! p) as [s0|] eqn:E; [destruct s0|]; simpl; try by rewrite E.
  apply list_lookup_insert_eq. by eapply lookup_lt_Some.
Qed.

Lemma call_frame (cb : Callback) (h : t) :
  now (call cb h) = now h /\ myEvents (call cb h) = myEvents h /\
  timers (call cb h) = timers h /\
  length (promises (call cb h)) = length (promises h).
Proof. destruct cb; apply settle_frame. Qed.

Lemma state_call (p : nat) (cb : Callback) (h : t) :
  state p (call cb h)
  = if decide (callbackTarget cb = p)
    then match state p h with Some Pending => Some (outcome cb (now h)) | o => o end
    else state p h.
Proof.
  destruct cb as [q|q reason]; simpl; destruct (decide (q = p)) as [->|Hne];
    try apply state_settle_eq; apply state_settle_ne; congruence.
Qed.

(** A settled promise is final: no callback changes it. *)
Lemma state_call_settled (p : nat) (cb : Callback) (h : t) (s : Settlement) :
  state p h = Some s -> s <> Pending -> state p (call cb h) = Some s.
Proof.
  intros Hs Hne. rewrite state_call, Hs.
  destruct (decide _); [|done]. by destruct s.
Qed.

(** *** Publishing *)

Lemma emitOn_frame (name : string) (ls : list (string * Callback)) (h : t) :
  now (emitOn name ls h) = now h /\ myEvents (emitOn name ls h) = myEvents h /\
  timers (emitOn name ls h) = timers h /\
  length (promises (emitOn name ls h)) = length (promises h).
Proof.
  revert h. induction ls as [|l ls IH]; intros h; [done|].
  unfold emitOn in *. simpl.
  destruct (String.eqb l.1 name); [|apply IH].
  destruct (IH (call l.2 h)) as (-> & -> & -> & ->). apply call_frame.
Qed.

Lemma emitOn_settled (name : string) (ls : list (string * Callback)) (h : t)
    (p : nat) (s : Settlement) :
  state p h = Some s -> s <> Pending -> state p (emitOn name ls h) = Some s.
Proof.
  revert h. induction ls as [|l ls IH]; intros h Hs Hne; [done|].
  unfold emitOn in *. simpl.
  destruct (String.eqb l.1 name); [|by apply IH].
  apply IH; [|done]. by apply state_call_settled.
Qed.

(** Listeners that do not concern [p], or listen to another signal, leave
    [p] alone. *)
Lemma emitOn_unrelated (name : string) (ls : list (string * Callback)) (h : t) (p : nat) :
  Forall (fun l => callbackTarget l.2 = p -> l.1 <> name) ls ->
  state p (emitOn name ls h) = state p h.
Proof.
  revert h. induction ls as [|l ls IH]; intros h Hls; [done|].
  apply Forall_cons in Hls as [Hl Hls].
  unfold emitOn in *. simpl.
  destruct (String.eqb l.1 name) eqn:E; [|by apply IH].
  rewrite IH by done. rewrite state_call.
  destruct (decide _) as [Ht|]; [|done].
  apply String.eqb_eq in E. by destruct (Hl Ht).
Qed.

Lemma emitOn_resolves (name : string) (ls : list (string * Callback)) (h : t) (p : nat) :
  Forall (fun l => callbackTarget l.2 = p -> l.2 = Resolve p) ls ->
  (name, Resolve p) ∈ ls ->
  state p h = Some Pending ->
  state p (emitOn name ls h) = Some (Fulfilled (now h)).
Proof.
  revert h. induction ls as [|l ls IH]; intros h Hls Hin Hp.
  - by apply elem_of_nil in Hin.
  - apply Forall_cons in Hls as [Hl Hls].
    unfold emitOn in *. simpl.
    destruct (String.eqb l.1 name) eqn:E.
    + destruct (decide (callbackTarget l.2 = p)) as [Ht|Ht].
      * apply emitOn_settled; [|done].
        rewrite state_call, Hp. rewrite decide_True by done.
        by rewrite (Hl Ht).
      * apply elem_of_cons in Hin as [<-|Hin]; [by simpl in Ht|].
        destruct (call_frame l.2 h) as (<- & _).
        apply IH; [done..|].
        rewrite state_call. by rewrite decide_False.
    + apply elem_of_cons in Hin as [<-|Hin].
      * simpl in E. by rewrite String.eqb_refl in E.
      * by apply IH.
Qed.

(** *** Timers *)

Lemma fire_frame (T : Z) (ts : list (Z * Callback)) (h : t) :
  myEvents (fire T ts h) = myEvents h /\ timers (fire T ts h) = timers h /\
  length (promises (fire T ts h)) = length (promises h).
Proof.
  revert h. induction ts as [|t1 ts IH]; intros h; [done|]. simpl.
  destruct (t1.1 <=? T); [|apply IH].
  destruct (IH (call t1.2 (set_now t1.1 h))) as (-> & -> & ->).
  destruct (call_frame t1.2 (set_now t1.1 h)) as (_ & -> & -> & ->). done.
Qed.

Lemma fire_settled (T : Z) (ts : list (Z * Callback)) (h : t) (p : nat) (s : Settlement) :
  state p h = Some s -> s <> Pending -> state p (fire T ts h) = Some s.
Proof.
  revert h. induction ts as [|t1 ts IH]; intros h Hs Hne; [done|]. simpl.
  destruct (t1.1 <=? T); [|by apply IH].
  apply IH; [|done]. by apply state_call_settled.
Qed.

(** Timers that do not concern [p], or are not due, leave [p] alone. *)
Lemma fire_unrelated (T : Z) (ts : list (Z * Callback)) (h : t) (p : nat) :
  Forall (fun t1 => callbackTarget t1.2 = p -> T < t1.1) ts ->
  state p (fire T ts h) = state p h.
Proof.
  revert h. induction ts as [|t1 ts IH]; intros h Hts; [done|].
  apply Forall_cons in Hts as [Ht Hts]. simpl.
  destruct (t1.1 <=? T) eqn:E; [|by apply IH].
  rewrite IH by done. rewrite state_call.
  destruct (decide _) as [Hp|]; [|done].
  specialize (Ht Hp). lia.
Qed.

Lemma fire_due (T : Z) (ts : list (Z * Callback)) (h : t) (p : nat) (D : Z) (cb : Callback) :
  callbackTarget cb = p ->
  Forall (fun t1 => callbackTarget t1.2 = p -> t1 = (D, cb)) ts ->
  (D, cb) ∈ ts ->
  D <= T ->
  state p h = Some Pending ->
  state p (fire T ts h) = Some (outcome cb D).
Proof.
  intros Hcb. revert h. induction ts as [|t1 ts IH]; intros h Hts Hin HD Hp.
  - by apply elem_of_nil in Hin.
  - apply Forall_cons in Hts as [Ht Hts]. simpl.
    destruct (decide (callbackTarget t1.2 = p)) as [Hq|Hq].
    + rewrite (Ht Hq). simpl.
      destruct (D <=? T) eqn:E; [|lia].
      apply fire_settled; [|by destruct cb].
      rewrite state_call. rewrite decide_True by done.
      change (state p (set_now D h)) with (state p h). by rewrite Hp.
    + apply elem_of_cons in Hin as [<-|Hin]; [by simpl in Hq|].
      destruct (t1.1 <=? T); [|by apply IH].
      apply IH; try done. rewrite state_call. by rewrite decide_False.
Qed.

End HostFacts.

(** ** A pending operation against its environment *)

Section Race.

Import Host.

Variables (p : nat) (signal : option string) (cb : Callback) (D : Z).

Lemma emit_frame (name : string) (h : t) :
  now (emit name h) = now h /\ myEvents (emit name h) = myEvents h /\
  timers (emit name h) = timers h /\
  length (promises (emit name h)) = length (promises h).
Proof. apply emitOn_frame. Qed.

Lemma emit_registered (name : string) (h : t) :
  registered p signal cb D h -> registered p signal cb D (emit name h).
Proof.
  unfold registered. destruct (emit_frame name h) as (_ & -> & -> & _). done.
Qed.

Lemma emit_armed (name : string) (h : t) : armed cb D h -> armed cb D (emit name h).
Proof. unfold armed. destruct (emit_frame name h) as (-> & _ & -> & _). done. Qed.

Lemma state_emit (name : string) (h : t) :
  registered p signal cb D h ->
  state p h = Some Pending ->
  state p (emit name h)
  = Some (if bool_decide (signal = Some name) then Fulfilled (now h) else Pending).
Proof.
  intros (_ & Hls & Hin & _) Hp. unfold emit.
  destruct (bool_decide (signal = Some name)) eqn:E.
  - apply bool_decide_eq_true in E.
    apply emitOn_resolves; [|by apply Hin|done].
    eapply Forall_impl; [exact Hls|]. simpl. intros l Hl Ht. by destruct (Hl Ht).
  - apply bool_decide_eq_false in E.
    rewrite emitOn_unrelated; [done|].
    eapply Forall_impl; [exact Hls|]. simpl. intros l Hl Ht Hn.
    destruct (Hl Ht) as [Hs _]. congruence.
Qed.

Lemma advance_now (dt : Z) (h : t) : now (advance dt h) = now h + Z.max 0 dt.
Proof. reflexivity. Qed.

Lemma advance_myEvents (dt : Z) (h : t) : myEvents (advance dt h) = myEvents h.
Proof. unfold advance. simpl. apply fire_frame. Qed.

Lemma advance_timers (dt : Z) (h : t) :
  timers (advance dt h)
  = List.filter (fun t1 => now h + Z.max 0 dt <? t1.1) (timers h).
Proof. reflexivity. Qed.

Lemma state_advance_fire (dt : Z) (h : t) (q : nat) :
  state q (advance dt h) = state q (fire (now h + Z.max 0 dt) (timers h) h).
Proof. reflexivity. Qed.

Lemma advance_registered (dt : Z) (h : t) :
  registered p signal cb D h -> registered p signal cb D (advance dt h).
Proof.
  unfold registered. rewrite advance_myEvents, advance_timers.
  intros (Hcb & Hls & Hin & Hts). repeat split; try done.
  apply Forall_forall. intros t1 Ht1.
  apply list_elem_of_In, filter_In in Ht1 as [Ht1 _].
  eapply Forall_forall in Hts; [exact Hts|]. by apply list_elem_of_In.
Qed.

Lemma state_advance (dt : Z) (h : t) :
  registered p signal cb D h ->
  armed cb D h ->
  state p h = Some Pending ->
  state p (advance dt h)
  = Some (if D <=? now h + Z.max 0 dt then outcome cb D else Pending) /\
  (now h + Z.max 0 dt < D -> armed cb D (advance dt h)).
Proof.
  intros (Hcb & _ & _ & Hts) [Hin Hle] Hp. rewrite state_advance_fire. split.
  - destruct (D <=? now h + Z.max 0 dt) eqn:E.
    + apply fire_due; try done. lia.
    + rewrite fire_unrelated; [done|].
      eapply Forall_impl; [exact Hts|]. simpl. intros t1 Ht1 Hq.
      rewrite (Ht1 Hq). simpl. lia.
  - intros Hlt. unfold armed. rewrite advance_timers, advance_now. split; [|lia].
    apply list_elem_of_In, filter_In. split; [by apply list_elem_of_In|].
    simpl. lia.
Qed.



Lemma run_app (tr1 tr2 : list Event) (h : t) : run (tr1 ++ tr2) h = run tr2 (run tr1 h).
Proof. unfold run. apply fold_left_app. Qed.



(** *** Reading the race off particular traces *)


Lemma duration_app (tr1 tr2 : list Event) :
  duration (tr1 ++ tr2) = duration tr1 + duration tr2.
Proof. induction tr1 as [|[name|dt] tr1 IH]; simpl; lia. Qed.




End Race.



Section MoreRace.

Import Host.

Variables (p : nat) (signal : option string) (cb : Callback) (D : Z).



End MoreRace.

(** ** Registering a pending operation *)

Section Registration.

Import Host.

Lemma elem_of_insertTimer (t0 x : Z * Callback) (ts : list (Z * Callback)) :
  x ∈ insertTimer t0 ts <-> x = t0 \/ x ∈ ts.
Proof.
  induction ts as [|t1 ts IH]; simpl.
  - rewrite list_elem_of_singleton. split; [by left | intros [?|H]; [done|]].
    by apply elem_of_nil in H.
  - destruct (t1.1 <=? t0.1).
    + rewrite !elem_of_cons, IH. tauto.
    + rewrite !elem_of_cons. tauto.
Qed.

Lemma Forall_insertTimer (P : Z * Callback -> Prop) (t0 : Z * Callback)
    (ts : list (Z * Callback)) :
  P t0 -> Forall P ts -> Forall P (insertTimer t0 ts).
Proof.
  intros H0 Hts. apply Forall_forall. intros x Hx.
  apply elem_of_insertTimer in Hx as [->|Hx]; [done|].
  by eapply Forall_forall in Hts.
Qed.


Lemma wf_targets (h : t) (q : nat) :
  wf h ->
  (length (promises h) <= q)%nat ->
  Forall (fun l => callbackTarget l.2 <> q) (myEvents h) /\
  Forall (fun t1 => callbackTarget t1.2 <> q) (timers h).
Proof.
  intros [Hl Ht] Hq. split; (eapply Forall_impl; [eassumption|]); simpl; lia.
Qed.

(** What [signalPromise] leaves behind. *)
Lemma signalPromise_spec (signal reason : string) (timeout : Number) (h : t) :
  wf h ->
  let p := length (promises h) in
  let D := now h + delay_ms timeout in
  exists h1,
    signalPromise signal reason timeout h = (p, h1) /\
    now h1 = now h /\
    promises h1 = promises h ++ [Pending] /\
    myEvents h1 = myEvents h ++ [(signal, Resolve p)] /\
    (D, Reject p reason) ∈ timers h1 /\
    registered p (Some signal) (Reject p reason) D h1 /\
    armed (Reject p reason) D h1 /\
    wf h1.
Proof.
  intros Hwf p D. eexists. split; [reflexivity|]. simpl.
  destruct (wf_targets h p Hwf (Nat.le_refl _)) as [Hl Ht].
  assert ((D, Reject p reason) ∈ insertTimer (D, Reject p reason) (timers h)) as Hin
    by (apply elem_of_insertTimer; by left).
  repeat split; try done.
  - apply Forall_app. split.
    + eapply Forall_impl; [exact Hl|]. simpl. intros l Hne Heq. by destruct Hne.
    + apply Forall_singleton. simpl. done.
  - intros name [= <-]. apply elem_of_app. right. by apply list_elem_of_singleton.
  - apply Forall_insertTimer; [done|].
    eapply Forall_impl; [exact Ht|]. simpl. intros l Hne Heq. by destruct Hne.
  - simpl. unfold delay_ms in D. subst D. lia.
  - simpl. rewrite length_app. simpl. apply Forall_app. split.
    + destruct Hwf as [Hwf _]. eapply Forall_impl; [exact Hwf|]. simpl. lia.
    + apply Forall_singleton. simpl. fold p. lia.
  - simpl. rewrite length_app. simpl. apply Forall_insertTimer; [simpl; fold p; lia|].
    destruct Hwf as [_ Hwf]. eapply Forall_impl; [exact Hwf|]. simpl. lia.
Qed.

Lemma intervalPromise_spec (h : t) :
  wf h ->
  let p := length (promises h) in
  let D := now h + BLESendInterval in
  exists h1,
    intervalPromise h = (p, h1) /\
    now h1 = now h /\
    promises h1 = promises h ++ [Pending] /\
    myEvents h1 = myEvents h /\
    (D, Resolve p) ∈ timers h1 /\
    registered p None (Resolve p) D h1 /\
    armed (Resolve p) D h1 /\
    wf h1.
Proof.
  intros Hwf p D. eexists. split; [reflexivity|]. simpl.
  destruct (wf_targets h p Hwf (Nat.le_refl _)) as [Hl Ht].
  assert ((D, Resolve p) ∈ insertTimer (D, Resolve p) (timers h)) as Hin
    by (apply elem_of_insertTimer; by left).
  repeat split; try done.
  - eapply Forall_impl; [exact Hl|]. simpl. intros l Hne Heq. by destruct Hne.
  - apply Forall_insertTimer; [done|].
    eapply Forall_impl; [exact Ht|]. simpl. intros l Hne Heq. by destruct Hne.
  - simpl. subst D. unfold BLESendInterval. lia.
  - simpl. rewrite length_app. simpl.
    destruct Hwf as [Hwf _]. eapply Forall_impl; [exact Hwf|]. simpl. lia.
  - simpl. rewrite length_app. simpl. apply Forall_insertTimer; [simpl; fold p; lia|].
    destruct Hwf as [_ Hwf]. eapply Forall_impl; [exact Hwf|]. simpl. lia.
Qed.

Lemma state_new_pending (ps : list Settlement) :
  (ps ++ [Pending]) !! length ps = Some Pending.
Proof. rewrite lookup_app_r by lia. by rewrite Nat.sub_diag. Qed.

End Registration.

(** ** Pending operations of the block layer *)

Section Operations.

Import Host.

Lemma state_extended (h h1 : t) (q : nat) (s : Settlement) :
  promises h1 = promises h ++ [Pending] ->
  state q h = Some s -> state q h1 = Some s.
Proof. unfold state. intros ->. apply lookup_app_l_Some. Qed.



End Operations.




Lemma setMarker_payload_known (m : string) :
  is_Some (setMarker_payload m)
  <-> m = "marker down"%string \/ m = "marker up"%string \/ m = "eraser down"%string.
Proof.
  unfold setMarker_payload.
  destruct (String.eqb_spec m "marker down"); [split; [tauto | by eexists]|].
  destruct (String.eqb_spec m "marker up"); [split; [tauto | by eexists]|].
  destruct (String.eqb_spec m "eraser down"); [split; [tauto | by eexists]|].
  split; [intros [x Hx]; discriminate | tauto].
Qed.

Lemma length_zero_empty (s : string) : (String.length s =? 0)%nat = bool_decide (s = EmptyString).
Proof. by destruct s. Qed.







(** ** The host invariant is kept by everything the driver does *)

Section Invariant.

Import Host.

Lemma wf_emit (name : string) (h : t) : wf h -> wf (emit name h).
Proof.
  unfold wf. destruct (emit_frame name h) as (_ & -> & -> & ->). done.
Qed.

Lemma wf_advance (dt : Z) (h : t) : wf h -> wf (advance dt h).
Proof.
  intros [Hl Ht]. unfold wf. rewrite advance_myEvents, advance_timers.
  assert (length (promises (advance dt h)) = length (promises h)) as ->
    by apply fire_frame.
  split; [done|].
  apply Forall_forall. intros t1 Ht1.
  apply list_elem_of_In, filter_In in Ht1 as [Ht1 _].
  eapply Forall_forall in Ht; [exact Ht|]. by apply list_elem_of_In.
Qed.

Lemma wf_step (e : Event) (h : t) : wf h -> wf (step e h).
Proof. destruct e; [apply wf_emit | apply wf_advance]. Qed.

Lemma wf_run (tr : list Event) (h : t) : wf h -> wf (run tr h).
Proof.
  revert h. induction tr as [|e tr IH]; intros h Hwf; [done|].
  apply IH. by apply wf_step.
Qed.

Lemma wf_onMessage (data : list Z) (h h' : t) (r r' : Root.t) :
  wf h -> Root._onMessage data h r = Some (h', r') -> wf h'.
Proof.
  intros Hwf. unfold Root._onMessage.
  repeat match goal with
         | |- (if ?c then _ else _) = _ -> _ => destruct c
         | |- match ?c with Some _ => _ | None => _ end = _ -> _ => destruct c
         | |- Some _ = Some _ -> _ => intros [= <- <-]; try done; by apply wf_emit
         | |- None = Some _ -> _ => discriminate
         end.
Qed.

Lemma wf_invoke (TextEncoder_encode : string -> list Z) (op : Operation)
    (h h' : t) (r r' : Root.t) (res : option nat) :
  wf h -> invoke TextEncoder_encode op (h, r) = (res, (h', r')) -> wf h'.
Proof.
  intros Hwf.
  destruct op as [d|a|l r0|m|red g b|f d|s|]; simpl invoke.
  - unfold driveDistance. cbn [fst snd].
    destruct (signalPromise_spec "motorFinished" "Motor Timeout"
                (driveDistance_timeout d) h Hwf) as (h1 & -> & Hr).
    intros [= _ <- _]. apply Hr.
  - unfold rotateAngle. cbn [fst snd].
    destruct (signalPromise_spec "motorFinished" "Motor Timeout"
                (a * num 15 + num 5000)%Q h Hwf) as (h1 & -> & Hr).
    intros [= _ <- _]. apply Hr.
  - unfold setSpeeds. cbn [fst snd].
    destruct (intervalPromise_spec h Hwf) as (h1 & -> & Hr).
    intros [= _ <- _]. apply Hr.
  - unfold setMarker. destruct (setMarker_payload m); cbn [fst snd].
    + destruct (signalPromise_spec "markerFinished" "Marker Timeout"
                  (num 5000) h Hwf) as (h1 & -> & Hr).
      intros [= _ <- _]. apply Hr.
    + by intros [= _ <- _].
  - unfold setLightsRGB. cbn [fst snd].
    destruct (intervalPromise_spec h Hwf) as (h1 & -> & Hr).
    intros [= _ <- _]. apply Hr.
  - unfold playNote. cbn [fst snd].
    destruct (signalPromise_spec "soundFinished" "Sound Timeout"
                (MathUtil.clamp (d * num 1000)%Q (num 0) (num 65535) + num 500)%Q h Hwf)
      as (h1 & -> & Hr).
    intros [= _ <- _]. apply Hr.
  - unfold sayText. destruct (String.length s =? 0)%nat; cbn [fst snd].
    + by intros [= _ <- _].
    + destruct (signalPromise_spec "soundFinished" "Sound Timeout"
                  (num 5000) h Hwf) as (h1 & -> & Hr).
      intros [= _ <- _]. apply Hr.
  - by intros [= _ <- _].
Qed.

End Invariant.

(** ** Inbound completion frames publish the signals *)

Lemma completion_frames_publish (rest : list Z) (h : Host.t) (r : Root.t) :
  Root._onMessage (1 :: 8 :: rest) h r = Some (Host.emit "motorFinished" h, r) /\
  Root._onMessage (1 :: 12 :: rest) h r = Some (Host.emit "motorFinished" h, r) /\
  Root._onMessage (2 :: 0 :: rest) h r = Some (Host.emit "markerFinished" h, r) /\
  Root._onMessage (5 :: 0 :: rest) h r = Some (Host.emit "soundFinished" h, r) /\
  Root._onMessage (5 :: 4 :: rest) h r = Some (Host.emit "soundFinished" h, r).
Proof. by split_and!. Qed.

(** ** Every block hands [sendPacket] a payload of 16 elements *)

Lemma block_payloads_have_16_elements (TextEncoder_encode : string -> list Z) :
  (forall d, length (driveDistance_payload d) = 16%nat) /\
  (forall a, length (rotateAngle_payload a) = 16%nat) /\
  (forall l r, length (setSpeeds_payload l r) = 16%nat) /\
  (forall m pl, setMarker_payload m = Some pl -> length pl = 16%nat) /\
  (forall r g b, length (setLightsRGB_payload r g b) = 16%nat) /\
  (forall f d, length (playNote_payload f d) = 16%nat) /\
  (forall s, length (sayText_payload TextEncoder_encode s) = 16%nat).
Proof.
  split_and!; try done.
  - intros m pl. unfold setMarker_payload.
    repeat match goal with |- context [if ?c then _ else _] => destruct c end;
      by intros [= <-].
  - intros s. unfold sayText_payload.
    destruct (16 <? length (strToArray TextEncoder_encode s))%nat eqn:E.
    + rewrite length_take. apply Nat.ltb_lt in E. lia.
    + rewrite length_app. unfold zeros. rewrite length_replicate.
      apply Nat.ltb_ge in E. lia.
Qed.

(** ** The timer queue stays in firing order *)

Section TimerQueue.

Import Host.

Lemma ascending_insertTimer (t0 : Z * Callback) (ts : list (Z * Callback)) :
  ascending ts -> ascending (insertTimer t0 ts).
Proof.
  induction ts as [|t1 ts IH]; simpl; [by split|].
  intros [Hle Hts]. destruct (t1.1 <=? t0.1) eqn:E; simpl.
  - split; [|by apply IH].
    apply Forall_insertTimer; [lia | done].
  - split; [|by split].
    apply Forall_cons. split; [lia|].
    eapply Forall_impl; [exact Hle|]. simpl. lia.
Qed.

Lemma ascending_filter (f : Z * Callback -> bool) (ts : list (Z * Callback)) :
  ascending ts -> ascending (List.filter f ts).
Proof.
  induction ts as [|t1 ts IH]; simpl; [done|].
  intros [Hle Hts].
  assert (Forall (fun t2 => t1.1 <= t2.1) (List.filter f ts)) as Hf.
  { apply Forall_forall. intros t2 H2.
    apply list_elem_of_In, filter_In in H2 as [H2 _].
    eapply Forall_forall in Hle; [exact Hle|]. by apply list_elem_of_In. }
  destruct (f t1); simpl; [split|]; auto.
Qed.

Lemma ordered_init : ordered init.
Proof. by split. Qed.

Lemma ordered_setTimeout (cb : Callback) (timeout : Number) (h : t) :
  ordered h -> ordered (setTimeout cb timeout h).
Proof.
  intros [Ha Hn]. split; simpl.
  - by apply ascending_insertTimer.
  - apply Forall_insertTimer; [|done]. simpl. unfold delay_ms. lia.
Qed.

Lemma ordered_emit (name : string) (h : t) : ordered h -> ordered (emit name h).
Proof. unfold ordered. destruct (emit_frame name h) as (-> & _ & -> & _). done. Qed.

Lemma ordered_advance (dt : Z) (h : t) : ordered h -> ordered (advance dt h).
Proof.
  intros [Ha Hn]. split; rewrite advance_timers.
  - by apply ascending_filter.
  - rewrite advance_now. apply Forall_forall. intros t1 H1.
    apply list_elem_of_In, filter_In in H1 as [_ H1]. simpl in H1. lia.
Qed.

(** On an ordered queue the timers that are due are a prefix of the queue,
    so [fire] runs them in deadline order and the clock never goes back. *)
Lemma ascending_due_prefix (T : Z) (ts : list (Z * Callback)) :
  ascending ts ->
  exists due later,
    ts = due ++ later /\
    Forall (fun t1 => t1.1 <= T) due /\ Forall (fun t1 => T < t1.1) later /\
    List.filter (fun t1 => T <? t1.1) ts = later.
Proof.
  induction ts as [|t1 ts IH]; simpl.
  - intros _. by exists [], [].
  - intros [Hle Hts]. destruct (T <? t1.1) eqn:E.
    + exists [], (t1 :: ts). split_and!; try done.
      * apply Forall_cons. split; [lia|].
        eapply Forall_impl; [exact Hle|]. simpl. lia.
      * f_equal. apply forallb_filter_id. apply forallb_forall. intros t2 H2.
        apply list_elem_of_In in H2. eapply Forall_forall in Hle; [|exact H2].
        simpl in Hle. lia.
    + destruct (IH Hts) as (due & later & -> & Hd & Hl & Hf).
      exists (t1 :: due), later. split_and!; try done.
      apply Forall_cons. split; [lia | done].
Qed.

Lemma ordered_signalPromise (signal reason : string) (timeout : Number) (h : t) :
  ordered h -> ordered (signalPromise signal reason timeout h).2.
Proof. intros Ho. unfold signalPromise. simpl. by apply ordered_setTimeout. Qed.

Lemma ordered_intervalPromise (h : t) : ordered h -> ordered (intervalPromise h).2.
Proof. intros Ho. unfold intervalPromise. simpl. by apply ordered_setTimeout. Qed.

End TimerQueue.

(** ** A pending operation while the driver goes on working *)

Section Environment.

Import Host.

Variable TextEncoder_encode : string -> list Z.

(** The host an inbound frame leaves. *)
Lemma onMessage_host (data : list Z) (h : t) (r : Root.t) :
  exists r', Root._onMessage data h r
             = Some (match frameSignal data with
                     | Some name => emit name h
                     | None => h
                     end, r').
Proof.
  unfold Root._onMessage, frameSignal.
  destruct (colorSums_decoded (take 16 (drop 3 data))) as (sums & -> & _).
  repeat match goal with
         | |- context [if ?c then _ else _] => destruct c; [by eexists|]
         end.
  by eexists.
Qed.

(** The host an invocation leaves: untouched, or with one more promise. *)
Lemma invoke_host (op : Operation) (h : t) (r : Root.t) :
  (invoke TextEncoder_encode op (h, r)).2.1 = h \/
  (exists signal reason timeout,
      (invoke TextEncoder_encode op (h, r)).2.1 = (signalPromise signal reason timeout h).2) \/
  (invoke TextEncoder_encode op (h, r)).2.1 = (intervalPromise h).2.
Proof.
  destruct op as [d|a|l r0|m|red g b|f d|s|]; simpl invoke.
  - right; left. by exists "motorFinished"%string, "Motor Timeout"%string,
                            (driveDistance_timeout d).
  - right; left. by exists "motorFinished"%string, "Motor Timeout"%string,
                            (a * num 15 + num 5000)%Q.
  - by right; right.
  - unfold setMarker. destruct (setMarker_payload m); [|by left].
    right; left. by exists "markerFinished"%string, "Marker Timeout"%string, (num 5000).
  - by right; right.
  - right; left.
    by exists "soundFinished"%string, "Sound Timeout"%string,
              (MathUtil.clamp (d * num 1000)%Q (num 0) (num 65535) + num 500)%Q.
  - unfold sayText. destruct (String.length s =? 0)%nat; [by left|].
    right; left. by exists "soundFinished"%string, "Sound Timeout"%string, (num 5000).
  - by left.
Qed.

Variables (p : nat) (signal : option string) (cb : Callback) (D : Z).

(** A later registration concerns a fresh promise and leaves [p] as it is. *)
Lemma later_registration (h h1 : t) (ls : list (string * Callback)) (t0 : Z * Callback) :
  wf h ->
  now h1 = now h ->
  promises h1 = promises h ++ [Pending] ->
  myEvents h1 = myEvents h ++ ls ->
  Forall (fun l => callbackTarget l.2 = length (promises h)) ls ->
  timers h1 = insertTimer t0 (timers h) ->
  callbackTarget t0.2 = length (promises h) ->
  registered p signal cb D h -> armed cb D h -> state p h = Some Pending ->
  registered p signal cb D h1 /\ armed cb D h1 /\ state p h1 = Some Pending.
Proof.
  intros Hwf Hnow Hps Hls Hfresh Hts Ht0 (Hcb & Hl & Hin & Ht) [Ha Hle] Hp.
  assert (p < length (promises h))%nat as Hlt by (by eapply lookup_lt_Some).
  split_and!.
  - split_and!; [done| | |].
    + rewrite Hls. apply Forall_app. split; [done|].
      eapply Forall_impl; [exact Hfresh|]. simpl. lia.
    + intros name Hn. rewrite Hls. apply elem_of_app. left. by apply Hin.
    + rewrite Hts. apply Forall_insertTimer; [lia | done].
  - split; [|lia]. rewrite Hts. apply elem_of_insertTimer. by right.
  - by eapply state_extended.
Qed.

Lemma invoke_keeps_race (op : Operation) (h : t) (r : Root.t) :
  wf h ->
  registered p signal cb D h -> armed cb D h -> state p h = Some Pending ->
  let h1 := (invoke TextEncoder_encode op (h, r)).2.1 in
  now h1 = now h /\ wf h1 /\
  registered p signal cb D h1 /\ armed cb D h1 /\ state p h1 = Some Pending.
Proof.
  intros Hwf Hreg Harm Hp h1.
  assert (wf h1) as Hwf1.
  { subst h1. destruct (invoke TextEncoder_encode op (h, r)) as [res [h' r']] eqn:E.
    by eapply wf_invoke. }
  subst h1.
  destruct (invoke_host op h r) as [-> | [(s & reason & timeout & E) | E]];
    [done| |]; rewrite E in *; (split; [done|]); (split; [done|]).
  - eapply (later_registration h _ [(s, Resolve (length (promises h)))]
              (now h + delay_ms timeout, Reject (length (promises h)) reason)); try done.
    by apply Forall_singleton.
  - eapply (later_registration h _ []
              (now h + delay_ms (num BLESendInterval), Resolve (length (promises h))));
      try done.
    simpl. by rewrite app_nil_r.
Qed.

Lemma act_settled (a : Activity) (w : World) (q : nat) (s : Settlement) :
  state q w.1 = Some s -> s <> Pending ->
  state q (act TextEncoder_encode a w).1 = Some s.
Proof.
  destruct w as [h r]. intros Hs Hne. destruct a as [dt|data|op]; simpl.
  - rewrite state_advance_fire. by apply fire_settled.
  - destruct (onMessage_host data h r) as [r' ->]. simpl.
    destruct (frameSignal data); [by apply emitOn_settled | done].
  - destruct (invoke_host op h r) as [-> | [(s0 & reason & timeout & ->) | ->]];
      [done | |]; by eapply state_extended.
Qed.

Lemma perform_settled (acts : list Activity) (w : World) (q : nat) (s : Settlement) :
  state q w.1 = Some s -> s <> Pending ->
  state q (perform TextEncoder_encode acts w).1 = Some s.
Proof.
  revert w. induction acts as [|a acts IH]; intros w Hs Hne; [done|].
  unfold perform in *. simpl. apply IH; [|done]. by apply act_settled.
Qed.

(** Whatever the driver is doing meanwhile, a pending operation follows
    the race of the specification on what it can observe. *)
Lemma perform_race (acts : list Activity) (h : t) (r : Root.t) :
  wf h ->
  registered p signal cb D h -> armed cb D h -> state p h = Some Pending ->
  state p (perform TextEncoder_encode acts (h, r)).1
  = Some (raceOutcome signal cb D (now h) (observedTrace acts)).
Proof.
  revert h r. induction acts as [|a acts IH]; intros h r Hwf Hreg Harm Hp; [done|].
  change (perform TextEncoder_encode (a :: acts) (h, r))
    with (perform TextEncoder_encode acts (act TextEncoder_encode a (h, r))).
  change (observedTrace (a :: acts)) with (observed a ++ observedTrace acts).
  destruct a as [dt|data|op]; simpl observed; simpl act.
  - simpl app. simpl raceOutcome.
    destruct (state_advance p signal cb D dt h Hreg Harm Hp) as [Hs Harm'].
    destruct (D <=? now h + Z.max 0 dt) eqn:E.
    + apply perform_settled; [done | by destruct cb].
    + rewrite <- advance_now.
      apply IH; [by apply wf_advance | by apply advance_registered | apply Harm'; lia | done].
  - destruct (onMessage_host data h r) as [r' ->]. simpl default.
    destruct (frameSignal data) as [name|]; simpl app; [|by apply IH].
    simpl raceOutcome.
    pose proof (state_emit p signal cb D name h Hreg Hp) as Hs.
    destruct (bool_decide (signal = Some name)).
    + by apply perform_settled.
    + destruct (emit_frame name h) as (Hnow & _). rewrite <- Hnow.
      apply IH; [by apply wf_emit | by apply emit_registered | by apply emit_armed | done].
  - simpl app.
    destruct (invoke_keeps_race op h r Hwf Hreg Harm Hp) as (Hnow & Hwf1 & Hreg1 & Harm1 & Hp1).
    destruct (invoke TextEncoder_encode op (h, r)) as [res [h1 r1]]. simpl in *.
    rewrite <- Hnow. by apply IH.
Qed.

End Environment.

(** The race of [driveDistance] with distance 10 among everything else the
    driver does: other invocations, and frames of any kind. *)
Lemma driveDistance_race_among_activities (TextEncoder_encode : string -> list Z)
    (w : World) (acts : list Activity) :
  Host.wf w.1 ->
  let p := length (Host.promises w.1) in
  Host.state p (perform TextEncoder_encode acts (driveDistance (num 10) w).2).1
  = Some (Host.raceOutcome (Some "motorFinished"%string) (Host.Reject p "Motor Timeout")
                           (Host.now w.1 + 6000) (Host.now w.1) (observedTrace acts)).
Proof.
  destruct w as [h r]. cbn [fst snd]. intros Hwf.
  destruct (signalPromise_spec "motorFinished" "Motor Timeout"
              (driveDistance_timeout (num 10)) h Hwf)
    as (h1 & Heq & Hnow & Hps & Hls & Hin & Hreg & Harm & Hwf1).
  unfold driveDistance. cbn [fst snd]. rewrite Heq. cbn [fst snd].
  assert (Host.state (length (Host.promises h)) h1 = Some Host.Pending) as Hp
    by (unfold Host.state; rewrite Hps; apply state_new_pending).
  pose proof (perform_race TextEncoder_encode _ _ _ _ acts h1
                (Root.sendPacket (num 1) (num 8) (Some (driveDistance_payload (num 10)))
                                 (Host.now h) r).2
                Hwf1 Hreg Harm Hp) as Hrace.
  rewrite Hnow in Hrace. exact Hrace.
Qed.

(** * Further properties of the codec *)

Section Truncation.


Lemma trunc_nonneg (x : Number) : (0 <= x)%Q -> 0 <= trunc x.
Proof.
  destruct x as [n d]. unfold Qle, trunc. simpl. intros H.
  apply Z.quot_pos; lia.
Qed.

End Truncation.

Lemma int16toArray_spec (x : Number) :
  length (int16toArray x) = 2%nat /\
  Forall is_byte (int16toArray x) /\
  decodeBE (int16toArray x) = trunc x mod 2 ^ 16 /\
  (0 <= trunc x < 2 ^ 16 -> decodeBE (int16toArray x) = trunc x).
Proof.
  split; [reflexivity|].
  rewrite int16toArray_elements. split; [bytes_by_mod|].
  assert (decodeBE [(ToInt32 x / 2 ^ 8) mod 2 ^ 8; ToInt32 x mod 2 ^ 8]
          = trunc x mod 2 ^ 16) as E.
  { unfold decodeBE, ToInt32. simpl.
    rewrite <- (ToInt32Z_low_bits (trunc x) 16) by lia.
    set (m := ToInt32Z (trunc x)).
    pose proof (Z.div_mod m (2 ^ 8) ltac:(lia)) as H1.
    pose proof (Z.div_mod (m / 2 ^ 8) (2 ^ 8) ltac:(lia)) as H2.
    rewrite Z.div_div in H2 by lia. change (2 ^ 8 * 2 ^ 8) with (2 ^ 16) in H2.
    pose proof (Z.div_mod m (2 ^ 16) ltac:(lia)) as H3.
    pose proof (Z.mod_pos_bound m (2 ^ 8) ltac:(lia)).
    pose proof (Z.mod_pos_bound (m / 2 ^ 8) (2 ^ 8) ltac:(lia)).
    pose proof (Z.mod_pos_bound m (2 ^ 16) ltac:(lia)).
    lia. }
  split; [exact E|].
  intros Hr. rewrite E. apply Z.mod_small. lia.
Qed.

(** X1.  For every number, [int16toArray] returns two bytes whose
    big-endian reading is the truncation of the number modulo 2^16; a value
    in [0, 65535] is read back unchanged. *)
Theorem int16toArray_bytes_of_truncation (x : Number) :
  length (int16toArray x) = 2%nat /\
  Forall is_byte (int16toArray x) /\
  decodeBE (int16toArray x) = trunc x mod 2 ^ 16 /\
  (0 <= trunc x < 2 ^ 16 -> decodeBE (int16toArray x) = trunc x).
Proof. apply int16toArray_spec. Qed.

Lemma int32toArray_spec (x : Number) :
  - 2 ^ 31 <= trunc x < 2 ^ 31 ->
  length (int32toArray x) = 4%nat /\
  decodeBE (int32toArray x) = trunc x /\
  Forall is_byte (drop 1 (int32toArray x)) /\
  (0 <= trunc x -> Forall is_byte (int32toArray x)) /\
  (trunc x < 0 -> exists top, int32toArray x !! 0%nat = Some top /\ -128 <= top < 0).
Proof.
  intros Hr.
  assert (ToInt32 x = trunc x) as Hv by (apply ToInt32Z_small; lia).
  split; [reflexivity|]. split; [by rewrite int32toArray_decodeBE|].
  split; [apply int32toArray_low_bytes|].
  pose proof (int32toArray_low_bytes x) as Hl.
  destruct (int32toArray_top x) as (Ht & Hrange & Hb).
  rewrite int32toArray_elements in *. simpl in Hl. split.
  - intros H0. constructor; [apply Hb; lia | exact Hl].
  - intros Hneg. eexists. split; [reflexivity|].
    split; [lia|]. apply Z.div_lt_upper_bound; lia.
Qed.

(** X2.  For every number whose truncation fits a signed 32-bit integer,
    [int32toArray] returns four elements whose big-endian reading is that
    truncation.  The three lower elements are always bytes; the first one is
    a byte when the value is not negative and lies in [-128, -1] when it
    is. *)
Theorem int32toArray_signed_roundtrip (x : Number) :
  - 2 ^ 31 <= trunc x < 2 ^ 31 ->
  length (int32toArray x) = 4%nat /\
  decodeBE (int32toArray x) = trunc x /\
  Forall is_byte (drop 1 (int32toArray x)) /\
  (0 <= trunc x -> Forall is_byte (int32toArray x)) /\
  (trunc x < 0 -> exists top, int32toArray x !! 0%nat = Some top /\ -128 <= top < 0).
Proof. apply int32toArray_spec. Qed.

Lemma int32toArray_signed_roundtrip_witness :
  decodeBE (int32toArray (num (-100))) = -100 /\
  decodeBE (int32toArray (25 # 2)) = 12.
Proof.
  split.
  - apply (int32toArray_signed_roundtrip (num (-100))). vm_compute. split; [discriminate | reflexivity].
  - apply (int32toArray_signed_roundtrip (25 # 2)). vm_compute. split; [discriminate | reflexivity].
Defined.

(** X3.  [colorDataToArray] splits input byte [i] (for [i] below 16) into
    its high nibble at position [2i] and its low nibble at position [2i + 1],
    and the two recombine to the byte; where the input is shorter than 16
    elements the missing positions decode as 0. *)
Theorem colorDataToArray_recombines (dataIn : list Z) (i : nat) :
  (i < 16)%nat ->
  (forall b, dataIn !! i = Some b -> is_byte b ->
     colorDataToArray dataIn !! (2 * i)%nat = Some (b / 16) /\
     colorDataToArray dataIn !! (2 * i + 1)%nat = Some (b mod 16) /\
     b / 16 * 16 + b mod 16 = b) /\
  (dataIn !! i = None ->
     colorDataToArray dataIn !! (2 * i)%nat = Some 0 /\
     colorDataToArray dataIn !! (2 * i + 1)%nat = Some 0).
Proof.
  intros Hi. rewrite colorDataToArray_closed. split.
  - intros b Hb Hbyte.
    assert (hi_nibble (Some b) = b / 16) as Hhi.
    { unfold hi_nibble. rewrite ToInt32U_byte by done.
      apply Z.mod_small. unfold is_byte in Hbyte. split.
      - apply Z.div_pos; lia.
      - apply Z.div_lt_upper_bound; lia. }
    assert (lo_nibble (Some b) = b mod 16) as Hlo
      by (unfold lo_nibble; by rewrite ToInt32U_byte).
    split_and!; [| |pose proof (Z.div_mod b 16); lia];
      do 16 (destruct i as [|i]; [simpl; rewrite Hb; congruence|]); lia.
  - intros Hn.
    split; do 16 (destruct i as [|i]; [simpl; by rewrite Hn|]); lia.
Qed.

Lemma colorDataToArray_recombines_witness :
  colorDataToArray [0xA7; 0x3C] !! 2%nat = Some 3 /\
  colorDataToArray [0xA7; 0x3C] !! 3%nat = Some 12.
Proof.
  destruct (colorDataToArray_recombines [0xA7; 0x3C] 1 ltac:(lia)) as [H _].
  destruct (H 0x3C eq_refl ltac:(unfold is_byte; lia)) as (H1 & H2 & _).
  split; [exact H1 | exact H2].
Defined.



(** * Further properties of the inbound path *)

Section Histogram.

(** The loop over the indices reads the values in order. *)
Lemma index_walk {A} (f : A -> option Z -> A) (pre values : list Z) (a : A) :
  fold_left (fun acc i => f acc ((pre ++ values) !! i))
            (seq (length pre) (length values)) a
  = fold_left (fun acc c => f acc (Some c)) values a.
Proof.
  revert pre a. induction values as [|c values IH]; intros pre a; [done|].
  simpl. rewrite list_lookup_middle by done.
  specialize (IH (pre ++ [c]) (f a (Some c))).
  rewrite <- app_assoc, length_app in IH. simpl in IH.
  rewrite Nat.add_1_r in IH. exact IH.
Qed.

Lemma colorSums_tally (colorData : list Z) :
  length colorData = 32%nat ->
  Root.colorSums colorData = tally colorData (replicate 16 0).
Proof.
  intros Hl. unfold Root.colorSums, tally. rewrite <- Hl.
  exact (index_walk
           (fun acc o => match acc, o with
                         | Some s, Some c => Root.increment c s
                         | _, _ => None
                         end) [] colorData (Some (replicate 16 0))).
Qed.

Lemma occurrences_cons (k c : Z) (values : list Z) :
  occurrences k (c :: values)
  = ((if (c =? k)%Z then 1 else 0) + occurrences k values)%nat.
Proof. unfold occurrences. simpl. by destruct (c =? k). Qed.

Lemma histogramTotal_alter_succ (sums : list Z) (i : nat) :
  (i < length sums)%nat -> histogramTotal (alter Z.succ i sums) = histogramTotal sums + 1.
Proof.
  unfold histogramTotal.
  revert i. induction sums as [|v sums IH]; intros i Hi; simpl in *; [lia|].
  destruct i as [|i]; simpl; [lia|].
  specialize (IH i ltac:(lia)). unfold alter in IH. lia.
Qed.

Lemma tally_counts (values sums : list Z) :
  Forall is_color values ->
  length sums = 16%nat ->
  exists sums',
    tally values sums = Some sums' /\
    length sums' = 16%nat /\
    (forall (k : nat) (v : Z),
        sums !! k = Some v ->
        sums' !! k = Some (v + Z.of_nat (occurrences (Z.of_nat k) values))) /\
    histogramTotal sums' = histogramTotal sums + Z.of_nat (length values).
Proof.
  intros Hc. revert sums. induction Hc as [|c values Hcol _ IH]; intros sums Hl.
  - exists sums. split_and!; try done.
    + intros k v Hk. rewrite Hk. f_equal. unfold occurrences. simpl. lia.
    + simpl. lia.
  - unfold tally. simpl. unfold is_color in Hcol.
    rewrite increment_in_range by lia.
    destruct (IH (alter Z.succ (Z.to_nat c) sums)) as (sums' & Ht & Hl' & Hk' & Htot).
    { by rewrite length_alter. }
    exists sums'. split_and!; try done.
    + intros k v Hk. rewrite occurrences_cons.
      destruct (decide (k = Z.to_nat c)) as [->|Hne].
      * rewrite (Hk' (Z.to_nat c) (Z.succ v)).
        2:{ rewrite list_lookup_alter_eq, Hk. done. }
        rewrite Z2Nat.id by lia. rewrite Z.eqb_refl. f_equal. lia.
      * rewrite (Hk' k v).
        2:{ rewrite list_lookup_alter_ne by done. done. }
        destruct (c =? Z.of_nat k) eqn:E; [lia|]. f_equal.
    + rewrite Htot, histogramTotal_alter_succ by lia. simpl length. lia.
Qed.

End Histogram.

(** The state a colour-scan frame leaves. *)
Lemma color_frame_state (data : list Z) (h : Host.t) (r : Root.t) :
  data !! 0%nat = Some 4 ->
  data !! 1%nat = Some 2 ->
  exists sums,
    Root._onMessage data h r
    = Some (h, Root.set_color (colorDataToArray (take 16 (drop 3 data))) sums r) /\
    length sums = 16%nat /\
    (forall k : nat,
        (k < 16)%nat ->
        sums !! k
        = Some (Z.of_nat (occurrences (Z.of_nat k)
                                      (colorDataToArray (take 16 (drop 3 data)))))) /\
    histogramTotal sums = 32.
Proof.
  intros Hd Hc.
  set (decoded := colorDataToArray (take 16 (drop 3 data))).
  destruct (tally_counts decoded (replicate 16 0)) as (sums & Ht & Hl & Hk & Htot);
    [apply colorDataToArray_range | done |].
  exists sums. split; [|split; [exact Hl|split]].
  - unfold Root._onMessage. rewrite Hd, Hc. simpl. fold decoded.
    rewrite colorSums_tally by apply colorDataToArray_length. by rewrite Ht.
  - intros k Hlt. rewrite (Hk k 0); [done|].
    apply lookup_replicate_2. lia.
  - rewrite Htot. unfold decoded. rewrite colorDataToArray_length. reflexivity.
Qed.



(** The states a bumper frame and a touch frame leave. *)
Lemma bumper_frame_state (data : list Z) (b7 : Z) (h : Host.t) (r : Root.t) :
  data !! 0%nat = Some 12 ->
  data !! 1%nat = Some 0 ->
  data !! 7%nat = Some b7 ->
  is_byte b7 ->
  Root._onMessage data h r
  = Some (h, Root.set_bumperState (Root.mkBumper (Z.testbit b7 7) (Z.testbit b7 6)) r).
Proof.
  intros Hd Hc H7 Hb.
  unfold Root._onMessage. rewrite Hd, Hc, H7. simpl looseEq. cbv iota beta. simpl andb.
  cbv iota. rewrite (ToInt32U_byte b7 Hb).
  change 0x80 with (2 ^ 7). change 0x40 with (2 ^ 6).
  rewrite !single_bit by lia. reflexivity.
Qed.

Lemma touch_frame_state (data : list Z) (b7 : Z) (h : Host.t) (r : Root.t) :
  data !! 0%nat = Some 17 ->
  data !! 1%nat = Some 0 ->
  data !! 7%nat = Some b7 ->
  is_byte b7 ->
  Root._onMessage data h r
  = Some (h, Root.set_touchState
               (Root.mkTouch (Z.testbit b7 7) (Z.testbit b7 6)
                             (Z.testbit b7 5) (Z.testbit b7 4)) r).
Proof.
  intros Hd Hc H7 Hb.
  unfold Root._onMessage. rewrite Hd, Hc, H7. simpl looseEq. cbv iota beta. simpl andb.
  cbv iota. rewrite (ToInt32U_byte b7 Hb).
  change 0x80 with (2 ^ 7). change 0x40 with (2 ^ 6).
  change 0x20 with (2 ^ 5). change 0x10 with (2 ^ 4).
  rewrite !single_bit by lia. reflexivity.
Qed.

(** X6.  On every touch frame (device 17, command 0) whose byte 7 is [b7],
    the handler overwrites the four touch flags with bits 0x80 (front left),
    0x40 (front right), 0x20 (rear right) and 0x10 (rear left) of [b7], and
    changes nothing else of the peripheral nor of the host. *)
Theorem touch_event_overwrites_flags (data : list Z) (b7 : Z) (h : Host.t) (r : Root.t) :
  data !! 0%nat = Some 17 ->
  data !! 1%nat = Some 0 ->
  data !! 7%nat = Some b7 ->
  is_byte b7 ->
  exists r',
    Root._onMessage data h r = Some (h, r') /\
    Root.frontLeft (Root._touchState r') = Z.testbit b7 7 /\
    Root.frontRight (Root._touchState r') = Z.testbit b7 6 /\
    Root.rearRight (Root._touchState r') = Z.testbit b7 5 /\
    Root.rearLeft (Root._touchState r') = Z.testbit b7 4 /\
    Root._bumperState r' = Root._bumperState r /\
    Root._colorData r' = Root._colorData r /\
    Root._colorSums r' = Root._colorSums r /\
    Root._ble r' = Root._ble r /\
    Root._rateLimiter r' = Root._rateLimiter r.
Proof.
  intros Hd Hc H7 Hb. eexists. split; [by apply (touch_frame_state data b7)|].
  by split_and!.
Qed.

Lemma touch_event_overwrites_flags_witness :
  exists r',
    Root._onMessage [17; 0; 0; 0; 0; 0; 0; 0x90] Host.init (Root.new 0)
    = Some (Host.init, r') /\
    Root.frontLeft (Root._touchState r') = true /\
    Root.frontRight (Root._touchState r') = false /\
    Root.rearRight (Root._touchState r') = false /\
    Root.rearLeft (Root._touchState r') = true.
Proof.
  destruct (touch_event_overwrites_flags [17; 0; 0; 0; 0; 0; 0; 0x90] 0x90 Host.init
              (Root.new 0) eq_refl eq_refl eq_refl ltac:(unfold is_byte; lia))
    as (r' & Heq & H1 & H2 & H3 & H4 & _).
  exists r'. by split_and!.
Defined.

(** X7.  A frame whose (device, command) pair is none of the nine the
    handler has a branch for, and likewise a frame of fewer than two
    elements, leaves the peripheral and the host exactly as they were. *)
Theorem unrecognised_frames_ignored (data : list Z) (h : Host.t) (r : Root.t) :
  ((forall d c, data !! 0%nat = Some d -> data !! 1%nat = Some c -> (d, c) ∉ knownFrames) ->
   Root._onMessage data h r = Some (h, r)) /\
  ((length data < 2)%nat -> Root._onMessage data h r = Some (h, r)).
Proof.
  assert ((forall d c, data !! 0%nat = Some d -> data !! 1%nat = Some c ->
                       (d, c) ∉ knownFrames) ->
          Root._onMessage data h r = Some (h, r)) as Hmain.
  { intros Hun. unfold Root._onMessage.
    destruct (data !! 0%nat) as [d|]; [|reflexivity].
    destruct (data !! 1%nat) as [c|]; [|simpl; by rewrite !andb_false_r].
    specialize (Hun d c eq_refl eq_refl). simpl looseEq.
    repeat match goal with
           | |- context [(d =? ?a) && (c =? ?b)] =>
               let E := fresh "E" in
               destruct ((d =? a) && (c =? b)) eqn:E;
               [ apply andb_true_iff in E as [->%Z.eqb_eq ->%Z.eqb_eq];
                 exfalso; apply Hun; unfold knownFrames; repeat constructor
               | clear E ]
           end.
    reflexivity. }
  split; [exact Hmain|].
  intros Hlen. apply Hmain. intros d c Hd Hc.
  apply lookup_lt_Some in Hc. lia.
Qed.

Lemma unrecognised_frames_ignored_witness :
  Root._onMessage [9; 9; 1; 2; 3] Host.init (Root.new 0) = Some (Host.init, Root.new 0) /\
  Root._onMessage [] Host.init (Root.new 0) = Some (Host.init, Root.new 0).
Proof.
  split.
  - destruct (unrecognised_frames_ignored [9; 9; 1; 2; 3] Host.init (Root.new 0)) as [H _].
    apply H. intros d c [= <-] [= <-]. unfold knownFrames.
    rewrite !elem_of_cons, elem_of_nil. intros H0.
    repeat (destruct H0 as [H0|H0]; [discriminate|]). done.
  - destruct (unrecognised_frames_ignored [] Host.init (Root.new 0)) as [_ H].
    apply H. simpl. lia.
Defined.



(** X9.  After a bumper frame whose byte 7 is [b7], [isBumper] answers
    bit 0x80 for "left", bit 0x40 for "right", their disjunction for "any"
    and false for every other selector; [whenBumper] gives the same answer on
    every selector. *)
Theorem bumper_queries_follow_frame (data : list Z) (b7 : Z) (h : Host.t) (r : Root.t) :
  data !! 0%nat = Some 12 ->
  data !! 1%nat = Some 0 ->
  data !! 7%nat = Some b7 ->
  is_byte b7 ->
  exists r',
    Root._onMessage data h r = Some (h, r') /\
    isBumper "left" r' = Z.testbit b7 7 /\
    isBumper "right" r' = Z.testbit b7 6 /\
    isBumper "any" r' = Z.testbit b7 7 || Z.testbit b7 6 /\
    (forall sel, sel <> "any"%string -> sel <> "left"%string -> sel <> "right"%string ->
                 isBumper sel r' = false) /\
    (forall sel, whenBumper sel r' = isBumper sel r').
Proof.
  intros Hd Hc H7 Hb. eexists. split; [by apply (bumper_frame_state data b7)|].
  split_and!; try reflexivity.
  intros sel H1 H2 H3. unfold isBumper.
  destruct (String.eqb_spec sel "any"); [done|].
  destruct (String.eqb_spec sel "left"); [done|].
  destruct (String.eqb_spec sel "right"); done.
Qed.

Lemma bumper_queries_follow_frame_witness :
  exists r',
    Root._onMessage [12; 0; 0; 0; 0; 0; 0; 0x40] Host.init (Root.new 0)
    = Some (Host.init, r') /\
    isBumper "left" r' = false /\ isBumper "right" r' = true /\ isBumper "any" r' = true.
Proof.
  destruct (bumper_queries_follow_frame [12; 0; 0; 0; 0; 0; 0; 0x40] 0x40 Host.init
              (Root.new 0) eq_refl eq_refl eq_refl ltac:(unfold is_byte; lia))
    as (r' & Heq & H1 & H2 & H3 & _).
  exists r'. by split_and!.
Defined.

(** X10.  After a touch frame whose byte 7 is [b7], [isTouch] answers bit
    0x80 for "front-left", 0x40 for "front-right", 0x20 for "back-right",
    0x10 for "back-left", the disjunction of the four for "any" and false for
    every other selector; [whenTouch] gives the same answer on every
    selector. *)
Theorem touch_queries_follow_frame (data : list Z) (b7 : Z) (h : Host.t) (r : Root.t) :
  data !! 0%nat = Some 17 ->
  data !! 1%nat = Some 0 ->
  data !! 7%nat = Some b7 ->
  is_byte b7 ->
  exists r',
    Root._onMessage data h r = Some (h, r') /\
    isTouch "front-left" r' = Z.testbit b7 7 /\
    isTouch "front-right" r' = Z.testbit b7 6 /\
    isTouch "back-right" r' = Z.testbit b7 5 /\
    isTouch "back-left" r' = Z.testbit b7 4 /\
    isTouch "any" r'
    = Z.testbit b7 7 || Z.testbit b7 6 || Z.testbit b7 4 || Z.testbit b7 5 /\
    (forall sel,
        sel <> "any"%string -> sel <> "front-left"%string -> sel <> "front-right"%string ->
        sel <> "back-left"%string -> sel <> "back-right"%string ->
        isTouch sel r' = false) /\
    (forall sel, whenTouch sel r' = isTouch sel r').
Proof.
  intros Hd Hc H7 Hb. eexists. split; [by apply (touch_frame_state data b7)|].
  split_and!; try reflexivity.
  intros sel H1 H2 H3 H4 H5. unfold isTouch.
  destruct (String.eqb_spec sel "any"); [done|].
  destruct (String.eqb_spec sel "front-left"); [done|].
  destruct (String.eqb_spec sel "front-right"); [done|].
  destruct (String.eqb_spec sel "back-left"); [done|].
  destruct (String.eqb_spec sel "back-right"); done.
Qed.

Lemma touch_queries_follow_frame_witness :
  exists r',
    Root._onMessage [17; 0; 0; 0; 0; 0; 0; 0x20] Host.init (Root.new 0)
    = Some (Host.init, r') /\
    isTouch "back-right" r' = true /\ isTouch "back-left" r' = false /\
    isTouch "any" r' = true.
Proof.
  destruct (touch_queries_follow_frame [17; 0; 0; 0; 0; 0; 0; 0x20] 0x20 Host.init
              (Root.new 0) eq_refl eq_refl eq_refl ltac:(unfold is_byte; lia))
    as (r' & Heq & _ & _ & H3 & H4 & H5 & _).
  exists r'. by split_and!.
Defined.

(** X11.  After a colour-scan frame, [whenColor] holds for "black",
    "red", "green" or "blue" exactly when at least five of the 32 decoded
    values are equal to 1, 2, 3 or 4 respectively, and is false for every
    other selector. *)
Theorem whenColor_needs_five_sensors (data : list Z) (h : Host.t) (r : Root.t) :
  data !! 0%nat = Some 4 ->
  data !! 1%nat = Some 2 ->
  let decoded := colorDataToArray (take 16 (drop 3 data)) in
  exists r',
    Root._onMessage data h r = Some (h, r') /\
    (whenColor "black" r' = true <-> (5 <= occurrences 1 decoded)%nat) /\
    (whenColor "red" r' = true <-> (5 <= occurrences 2 decoded)%nat) /\
    (whenColor "green" r' = true <-> (5 <= occurrences 3 decoded)%nat) /\
    (whenColor "blue" r' = true <-> (5 <= occurrences 4 decoded)%nat) /\
    (forall sel,
        sel <> "black"%string -> sel <> "red"%string -> sel <> "green"%string ->
        sel <> "blue"%string -> whenColor sel r' = false).
Proof.
  intros Hd Hc decoded.
  destruct (color_frame_state data h r Hd Hc) as (sums & Heq & Hl & Hk & _).
  fold decoded in Heq, Hk.
  eexists. split; [exact Heq|].
  assert (forall k : nat, (k < 16)%nat ->
            sumAbove sums k 4 = true <-> (5 <= occurrences (Z.of_nat k) decoded)%nat) as Hs.
  { intros k Hlt. unfold sumAbove. rewrite (Hk k Hlt). rewrite Z.ltb_lt. lia. }
  split_and!.
  - apply (Hs 1%nat). lia.
  - apply (Hs 2%nat). lia.
  - apply (Hs 3%nat). lia.
  - apply (Hs 4%nat). lia.
  - intros sel H1 H2 H3 H4. unfold whenColor.
    destruct (String.eqb_spec sel "black"); [done|].
    destruct (String.eqb_spec sel "red"); [done|].
    destruct (String.eqb_spec sel "green"); [done|].
    destruct (String.eqb_spec sel "blue"); done.
Qed.

Lemma whenColor_needs_five_sensors_witness :
  exists r',
    Root._onMessage ([4; 2; 0] ++ replicate 2 0x11 ++ replicate 14 0x20 ++ [0])
                    Host.init (Root.new 0)
    = Some (Host.init, r') /\
    whenColor "black" r' = false /\ whenColor "red" r' = true.
Proof.
  destruct (whenColor_needs_five_sensors
              ([4; 2; 0] ++ replicate 2 0x11 ++ replicate 14 0x20 ++ [0])
              Host.init (Root.new 0) eq_refl eq_refl)
    as (r' & Heq & Hb & Hr & _).
  exists r'. split; [exact Heq|]. split.
  - apply not_true_is_false. intros H. apply Hb in H. vm_compute in H. lia.
  - apply Hr. vm_compute. lia.
Defined.

(** X12.  On a newly constructed peripheral, before any frame has arrived,
    [isBumper], [whenBumper], [isTouch], [whenTouch] and [whenColor] are
    false on every selector; [whenLight] is false on every selector in every
    state. *)
Theorem queries_false_before_any_frame (sel : string) (now : Z) (r : Root.t) :
  isBumper sel (Root.new now) = false /\
  whenBumper sel (Root.new now) = false /\
  isTouch sel (Root.new now) = false /\
  whenTouch sel (Root.new now) = false /\
  whenColor sel (Root.new now) = false /\
  whenLight sel r = false.
Proof.
  unfold isBumper, whenBumper, isTouch, whenTouch, whenColor, whenLight.
  split_and!; repeat match goal with
                     | |- context [String.eqb sel ?s] => destruct (String.eqb sel s)
                     end; reflexivity.
Qed.

(** * Further properties of the block layer *)

Section Clamping.

Lemma clamp_range (n lo hi : Number) :
  (lo <= hi)%Q -> (lo <= MathUtil.clamp n lo hi <= hi)%Q.
Proof.
  intros Hle. unfold MathUtil.clamp, Math_min, Math_max. split.
  - apply Q.min_glb; [apply Q.le_max_r | exact Hle].
  - apply Q.le_min_r.
Qed.

Lemma clamp_saturate (n lo hi : Number) :
  (lo <= hi)%Q -> (MathUtil.clamp n lo hi == saturate lo hi n)%Q.
Proof.
  intros Hle. unfold MathUtil.clamp, Math_min, Math_max, saturate.
  destruct (Qle_bool n lo) eqn:H0.
  - apply Qle_bool_iff in H0.
    rewrite (Q.max_r n lo) by exact H0. by apply Q.min_l.
  - assert (lo < n)%Q as Hlt.
    { apply Qnot_le_lt. intros H. apply Qle_bool_iff in H. congruence. }
    rewrite (Q.max_l n lo) by (by apply Qlt_le_weak).
    destruct (Qle_bool hi n) eqn:H1.
    + apply Qle_bool_iff in H1. by apply Q.min_r.
    + apply Q.min_l. apply Qlt_le_weak, Qnot_le_lt.
      intros H. apply Qle_bool_iff in H. congruence.
Qed.


End Clamping.






Section Outbound.

Variable TextEncoder_encode : string -> list Z.

Lemma opPayload_length (op : Operation) (payload : list Number) :
  opPayload TextEncoder_encode op = Some payload -> length payload = 16%nat.
Proof.
  destruct (block_payloads_have_16_elements TextEncoder_encode)
    as (H1 & H2 & H3 & H4 & H5 & H6 & H7).
  destruct op as [d|a|l r0|m|red g b|f d|s|]; simpl; try (intros [= <-]; done).
  - apply H4.
  - destruct (String.length s =? 0)%nat; [discriminate|]. by intros [= <-].
Qed.

(** The peripheral an invocation leaves: the one [sendPacket] leaves for
    the operation's header and payload, or the same. *)
Lemma invoke_peripheral (op : Operation) (h : Host.t) (r : Root.t) :
  (invoke TextEncoder_encode op (h, r)).2.2
  = match opPayload TextEncoder_encode op with
    | Some payload =>
        if Root.isConnected r
        then (Root.sendPacket (num (opHeader op).1) (num (opHeader op).2) (Some payload)
                              (Host.now h) r).2
        else r
    | None => r
    end.
Proof.
  assert (forall d c pl, Root.isConnected r = false ->
            (Root.sendPacket d c pl (Host.now h) r).2 = r) as Hoff
    by (intros; by rewrite sendPacket_disconnected).
  destruct op as [d|a|l r0|m|red g b|f d|s|]; cbn [invoke opPayload opHeader fst snd].
  - unfold driveDistance. cbn [fst snd].
    match goal with
    | |- context [signalPromise ?a ?b ?c h] => destruct (signalPromise a b c h)
    end. simpl.
    destruct (Root.isConnected r) eqn:E; [done | by rewrite Hoff].
  - unfold rotateAngle. cbn [fst snd].
    match goal with
    | |- context [signalPromise ?a ?b ?c h] => destruct (signalPromise a b c h)
    end. simpl.
    destruct (Root.isConnected r) eqn:E; [done | by rewrite Hoff].
  - unfold setSpeeds. cbn [fst snd].
    destruct (intervalPromise h). simpl.
    destruct (Root.isConnected r) eqn:E; [done | by rewrite Hoff].
  - unfold setMarker. destruct (setMarker_payload m); [|done]. cbn [fst snd].
    match goal with
    | |- context [signalPromise ?a ?b ?c h] => destruct (signalPromise a b c h)
    end. simpl.
    destruct (Root.isConnected r) eqn:E; [done | by rewrite Hoff].
  - unfold setLightsRGB. cbn [fst snd].
    destruct (intervalPromise h). simpl.
    destruct (Root.isConnected r) eqn:E; [done | by rewrite Hoff].
  - unfold playNote. cbn [fst snd].
    match goal with
    | |- context [signalPromise ?a ?b ?c h] => destruct (signalPromise a b c h)
    end. simpl.
    destruct (Root.isConnected r) eqn:E; [done | by rewrite Hoff].
  - unfold sayText. destruct (String.length s =? 0)%nat; [done|]. cbn [fst snd].
    match goal with
    | |- context [signalPromise ?a ?b ?c h] => destruct (signalPromise a b c h)
    end. simpl.
    destruct (Root.isConnected r) eqn:E; [done | by rewrite Hoff].
  - unfold Root.stopAll. by destruct (Root.isConnected r).
Qed.

Lemma sendPacket_keeps_sensors (d c : Number) (payload : option (list Number))
    (now : Z) (r : Root.t) :
  let r' := (Root.sendPacket d c payload now r).2 in
  Root._bumperState r' = Root._bumperState r /\
  Root._touchState r' = Root._touchState r /\
  Root._colorData r' = Root._colorData r /\
  Root._colorSums r' = Root._colorSums r /\
  Root._runtime_stopAll r' = Root._runtime_stopAll r /\
  Root.isConnected r' = Root.isConnected r.
Proof.
  unfold Root.sendPacket, Root.send.
  destruct (Root.isConnected r) eqn:Hc; simpl; [|by rewrite Hc].
  destruct (isConnected_ble r Hc) as (b & Hb & Hcon).
  destruct (RateLimiter.okayToSend now (Root._rateLimiter r)) as [[] l]; simpl.
  - unfold Root.write. simpl. rewrite Hb. simpl. split_and!; try done.
  - by split_and!.
Qed.

End Outbound.

(** X16.  Every block operation changes the transport log by at most one
    write: when the operation sends, the peripheral is connected and the rate
    limiter accepts, exactly the packet of the operation's device, command
    and payload is appended; otherwise the log is unchanged.  That packet has
    20 elements: device, command, 0, the 16 payload elements, 0.  The sensor
    state and the connection are never changed by an operation. *)
Theorem operation_writes_one_packet (TextEncoder_encode : string -> list Z)
    (op : Operation) (h : Host.t) (r : Root.t) :
  let r' := (invoke TextEncoder_encode op (h, r)).2.2 in
  Root.writes r'
  = match opPayload TextEncoder_encode op with
    | Some payload =>
        if Root.isConnected r
           && (RateLimiter.okayToSend (Host.now h) (Root._rateLimiter r)).1
        then Root.writes r
             ++ [Root.writeOf (Root.packet (num (opHeader op).1) (num (opHeader op).2) payload)]
        else Root.writes r
    | None => Root.writes r
    end /\
  (forall payload,
      opPayload TextEncoder_encode op = Some payload ->
      let message := Root.packet (num (opHeader op).1) (num (opHeader op).2) payload in
      length message = 20%nat /\
      message !! 0%nat = Some (num (opHeader op).1) /\
      message !! 1%nat = Some (num (opHeader op).2) /\
      message !! 2%nat = Some (num 0) /\
      take 16 (drop 3 message) = payload /\
      message !! 19%nat = Some (num 0)) /\
  Root._bumperState r' = Root._bumperState r /\
  Root._touchState r' = Root._touchState r /\
  Root._colorData r' = Root._colorData r /\
  Root._colorSums r' = Root._colorSums r /\
  Root.isConnected r' = Root.isConnected r.
Proof.
  intros r'. subst r'. rewrite invoke_peripheral.
  split; [|split].
  - destruct (opPayload TextEncoder_encode op) as [payload|]; [|done].
    destruct (Root.isConnected r) eqn:Hc; [|done].
    rewrite sendPacket_writes, Hc. done.
  - intros payload Hp message.
    pose proof (opPayload_length TextEncoder_encode op payload Hp) as Hl.
    subst message. rewrite packet_unfold.
    split_and!; try done.
    + simpl. rewrite length_app. simpl. lia.
    + change (take 16 (payload ++ [num 0]) = payload).
      rewrite <- Hl at 1. apply take_app_length.
    + change ((payload ++ [num 0]) !! 16%nat = Some (num 0)).
      rewrite lookup_app_r by lia. by rewrite Hl.
  - destruct (opPayload TextEncoder_encode op) as [payload|]; [|done].
    destruct (Root.isConnected r) eqn:Hc; [|by rewrite Hc].
    destruct (sendPacket_keeps_sensors (num (opHeader op).1) (num (opHeader op).2)
                (Some payload) (Host.now h) r) as (H1 & H2 & H3 & H4 & _ & H6).
    by rewrite H1, H2, H3, H4, H6.
Qed.

(** X17.  [sayText] on the empty text, and [setMarker] on a selector that
    is none of "marker down", "marker up" and "eraser down", return no
    promise and leave the host and the peripheral exactly as they were. *)
Theorem early_returns_change_nothing (TextEncoder_encode : string -> list Z)
    (MARKER : string) (w : World) :
  sayText TextEncoder_encode EmptyString w = (None, w) /\
  (MARKER <> "marker down"%string -> MARKER <> "marker up"%string ->
   MARKER <> "eraser down"%string ->
   setMarker MARKER w = (None, w)).
Proof.
  split; [reflexivity|].
  intros H1 H2 H3. unfold setMarker, setMarker_payload.
  destruct (String.eqb_spec MARKER "marker down"); [done|].
  destruct (String.eqb_spec MARKER "marker up"); [done|].
  destruct (String.eqb_spec MARKER "eraser down"); done.
Qed.

Lemma early_returns_change_nothing_witness :
  setMarker "pen down" (Host.init, linked (RateLimiter.new 20 0))
  = (None, (Host.init, linked (RateLimiter.new 20 0))).
Proof.
  destruct (early_returns_change_nothing asciiEncode "pen down"
              (Host.init, linked (RateLimiter.new 20 0))) as [_ H].
  apply H; discriminate.
Defined.

(** X18.  The payload of [sayText] is the first 16 bytes of the encoded
    text followed by zeros up to 16 elements: a longer text is cut at 16
    bytes, a shorter one appears whole at the start of the payload. *)
Theorem sayText_payload_truncates_or_pads (TextEncoder_encode : string -> list Z)
    (text : string) :
  sayText_payload TextEncoder_encode text
  = map num (take 16 (TextEncoder_encode text))
    ++ zeros (16 - length (TextEncoder_encode text)) /\
  length (sayText_payload TextEncoder_encode text) = 16%nat /\
  ((length (TextEncoder_encode text) <= 16)%nat ->
   take (length (TextEncoder_encode text)) (sayText_payload TextEncoder_encode text)
   = map num (TextEncoder_encode text)).
Proof.
  assert (sayText_payload TextEncoder_encode text
          = map num (take 16 (TextEncoder_encode text))
            ++ zeros (16 - length (TextEncoder_encode text))) as E.
  { unfold sayText_payload, strToArray. rewrite length_map.
    destruct (16 <? length (TextEncoder_encode text))%nat eqn:H.
    - apply Nat.ltb_lt in H.
      replace (16 - length (TextEncoder_encode text))%nat with 0%nat by lia.
      unfold zeros. simpl. rewrite app_nil_r.
      change (take 16 (num <$> TextEncoder_encode text)
              = num <$> take 16 (TextEncoder_encode text)).
      by rewrite fmap_take.
    - apply Nat.ltb_ge in H. by rewrite (take_ge (TextEncoder_encode text) 16 H). }
  split; [exact E|]. split.
  - destruct (block_payloads_have_16_elements TextEncoder_encode) as (_ & _ & _ & _ & _ & _ & H).
    apply H.
  - intros Hle. rewrite E. rewrite (take_ge (TextEncoder_encode text) 16 Hle).
    rewrite <- (length_map num (TextEncoder_encode text)) at 1.
    apply take_app_length.
Qed.

Lemma sayText_payload_truncates_or_pads_witness :
  take 2 (sayText_payload asciiEncode "Hi") = [num 72; num 105].
Proof.
  destruct (sayText_payload_truncates_or_pads asciiEncode "Hi") as (_ & _ & H).
  apply H. simpl. lia.
Defined.

(** X19.  The payload of [setLightsColor] is 1, then the red, green and
    blue fields each saturated to [0, 255] (no rescaling), then twelve zeros;
    the block appends the packet with device 3, command 2 and this payload to
    the transport log when the peripheral is connected and the rate limiter
    accepts, and writes nothing otherwise. *)
Theorem setLightsColor_clamps_channels (rgb_r rgb_g rgb_b : Number) :
  exists r g b : Number,
    setLightsColor_payload rgb_r rgb_g rgb_b = [num 1; r; g; b] ++ zeros 12 /\
    (r == saturate (num 0) (num 255) rgb_r)%Q /\
    (g == saturate (num 0) (num 255) rgb_g)%Q /\
    (b == saturate (num 0) (num 255) rgb_b)%Q /\
    (num 0 <= r <= num 255)%Q /\ (num 0 <= g <= num 255)%Q /\ (num 0 <= b <= num 255)%Q /\
    (forall w : World,
        Root.writes (setLightsColor rgb_r rgb_g rgb_b w).2.2
        = if Root.isConnected w.2
             && (RateLimiter.okayToSend (Host.now w.1) (Root._rateLimiter w.2)).1
          then Root.writes w.2
               ++ [Root.writeOf (Root.packet (num 3) (num 2)
                                             (setLightsColor_payload rgb_r rgb_g rgb_b))]
          else Root.writes w.2).
Proof.
  do 3 eexists. split; [reflexivity|].
  split_and!; try (apply clamp_saturate; done); try (apply clamp_range; done).
  intros [h r]. unfold setLightsColor. simpl.
  destruct (intervalPromise h) as [p h1]. simpl. apply sendPacket_writes.
Qed.

(** X20.  For an integer argument [n] with [10 n] in the signed 32-bit
    range, [driveDistance] and [rotateAngle] send the same payload: four
    elements reading back [10 n] (tenths of the unit), then twelve zeros. *)
Theorem drive_and_rotate_encode_tenths (n : Z) :
  - 2 ^ 31 <= 10 * n < 2 ^ 31 ->
  exists bytes : list Z,
    driveDistance_payload (num n) = map num bytes ++ zeros 12 /\
    rotateAngle_payload (num n) = map num bytes ++ zeros 12 /\
    length bytes = 4%nat /\
    decodeBE bytes = 10 * n.
Proof.
  intros Hr. exists (int32toArray (num n * num 10)%Q).
  split; [reflexivity|]. split; [reflexivity|]. split; [reflexivity|].
  assert (trunc (num n * num 10)%Q = 10 * n) as Ht.
  { unfold trunc, num. simpl. rewrite Z.quot_1_r. lia. }
  destruct (int32toArray_spec (num n * num 10)%Q ltac:(rewrite Ht; lia)) as (_ & Hd & _).
  by rewrite Hd, Ht.
Qed.

Lemma drive_and_rotate_encode_tenths_witness :
  exists bytes : list Z,
    driveDistance_payload (num 16) = map num bytes ++ zeros 12 /\ decodeBE bytes = 160.
Proof.
  destruct (drive_and_rotate_encode_tenths 16 ltac:(lia)) as (bytes & H1 & _ & _ & H2).
  exists bytes. split; [exact H1 | exact H2].
Defined.

(** * Further properties of pending operations *)

Section Completion.

Variable TextEncoder_encode : string -> list Z.


(** The listeners an invocation leaves on the shared emitter. *)
Lemma invoke_myEvents (op : Operation) (h : Host.t) (r : Root.t) :
  Host.myEvents (invoke TextEncoder_encode op (h, r)).2.1
  = Host.myEvents h ++ listenerOf op (length (Host.promises h)).
Proof.
  unfold listenerOf.
  destruct op as [d|a|l r0|m|red g b|f d|s|]; cbn [invoke]; simpl completion;
    try reflexivity; try (by rewrite app_nil_r).
  - unfold setMarker.
    pose proof (setMarker_payload_known m) as Hk.
    destruct (setMarker_payload m) as [pl|].
    + rewrite bool_decide_eq_true_2 by (apply Hk; by eexists). reflexivity.
    + rewrite bool_decide_eq_false_2.
      2:{ intros H. apply Hk in H. by destruct H. }
      by rewrite app_nil_r.
  - unfold sayText. rewrite length_zero_empty.
    destruct (bool_decide (s = EmptyString)); [by rewrite app_nil_r | reflexivity].
Qed.

Lemma act_myEvents (a : Activity) (w : World) :
  exists added,
    Host.myEvents (act TextEncoder_encode a w).1 = Host.myEvents w.1 ++ added /\
    length added = listenersRegistered [a].
Proof.
  destruct w as [h r]. destruct a as [dt|data|op]; cbn [act fst snd].
  - exists []. by rewrite advance_myEvents, app_nil_r.
  - exists []. destruct (onMessage_host data h r) as [r' ->]. simpl.
    destruct (frameSignal data) as [name|]; [|by rewrite app_nil_r].
    destruct (emit_frame name h) as (_ & -> & _). by rewrite app_nil_r.
  - exists (listenerOf op (length (Host.promises h))).
    split; [apply invoke_myEvents|].
    unfold listenerOf, listenersRegistered. simpl. by destruct (completion op).
Qed.

End Completion.





(** X23.  Along any sequence of elapsing time, arriving frames and invoked
    operations, the listeners of the shared emitter are only ever appended
    to: the list at the end is the list at the start followed by one listener
    for each invoked operation that waits for a completion signal.  No
    listener is removed, also after its promise has settled. *)
Theorem listeners_are_never_removed (TextEncoder_encode : string -> list Z)
    (acts : list Activity) (w : World) :
  exists added,
    Host.myEvents (perform TextEncoder_encode acts w).1 = Host.myEvents w.1 ++ added /\
    length added = listenersRegistered acts.
Proof.
  revert w. induction acts as [|a acts IH]; intros w.
  - exists []. by rewrite app_nil_r.
  - change (perform TextEncoder_encode (a :: acts) w)
      with (perform TextEncoder_encode acts (act TextEncoder_encode a w)).
    destruct (act_myEvents TextEncoder_encode a w) as (add1 & H1 & L1).
    destruct (IH (act TextEncoder_encode a w)) as (add2 & H2 & L2).
    exists (add1 ++ add2). split.
    + by rewrite H2, H1, app_assoc.
    + rewrite length_app, L1, L2. unfold listenersRegistered. simpl.
      destruct a as [dt|data|op]; try reflexivity. by destruct (completion op).
Qed.


